(** * spyplayer / fifoplayer: the two FIFO loops of [startFifoPipes]

    A shallow embedding of [src/spyplayer.go] (the [startFifoPipes]
    variant): the pure formatting code of [fetchTrackDetails] and
    [writeTrackDetailsToPipe], the reader [readTrackControlFromPipe], and
    one iteration of each of the two endless loops, written as functions
    that return the trace of external calls they make together with the
    way the iteration ends (back to the top of the loop, or [os.Exit]).

    Go values are modelled as follows.
    - [string]: Go strings are byte strings, Rocq's [string] is a list of
      8-bit [ascii].
    - [int] (spotify.Numeric): [Z].
    - [float64]: [spec_float] at precision 53 and [emax] 1024, the
      IEEE 754 binary64 reference operations of the standard library.
    - [error]: the text of the error; [nil] is [None].
    - [time.Time]: an instant on a linear clock, [Z]. *)

From Stdlib Require Import ZArith List String Ascii Bool Lia.
From Stdlib Require Import Floats.SpecFloat.
Import ListNotations.

Local Open Scope string_scope.
Local Open Scope list_scope.

(** Go's [+] on strings. *)
Infix "+++" := String.append (right associativity, at level 60).

(** ** Go strings *)

Module Strings.

(** [strings.HasPrefix]. *)
Fixpoint HasPrefix (s prefix : string) {struct prefix} : bool :=
  match prefix, s with
  | EmptyString, _ => true
  | String _ _, EmptyString => false
  | String p prefix', String c s' => Ascii.eqb c p && HasPrefix s' prefix'
  end.

(** Number of byte offsets of [s] at which [sep] starts.  For a separator
    that cannot overlap itself, such as [", "], this is [strings.Count]. *)
Fixpoint occurrences (sep s : string) : nat :=
  match s with
  | EmptyString => 0
  | String _ s' => (if HasPrefix s sep then 1 else 0) + occurrences sep s'
  end.

(** [strings.Split(s, sep)] for a separator of the two bytes [c1], [c2],
    with the piece read so far: cut at every occurrence met from the left. *)
Fixpoint Split_from (c1 c2 : ascii) (piece s : string) : list string :=
  match s with
  | EmptyString => [piece]
  | String c s' =>
      match s' with
      | String d rest =>
          if Ascii.eqb c c1 && Ascii.eqb d c2
          then piece :: Split_from c1 c2 EmptyString rest
          else Split_from c1 c2 (piece +++ String c EmptyString) s'
      | EmptyString => Split_from c1 c2 (piece +++ String c EmptyString) s'
      end
  end.

(** [strings.Split(s, ", ")]. *)
Definition SplitCommaSpace (s : string) : list string :=
  Split_from "," " " EmptyString s.

(** [s[:n]] for [n] clamped to [len(s)]. *)
Fixpoint take (n : nat) (s : string) : string :=
  match n, s with
  | S n', String c s' => String c (take n' s')
  | _, _ => EmptyString
  end.

(** [utf8.RuneSelf]: bytes below it are single-byte runes. *)
Definition RuneSelf : nat := 128.

(** The table [asciiSpace] of package strings:
    ['\t'], ['\n'], ['\v'], ['\f'], ['\r'], [' ']. *)
Definition asciiSpace (c : ascii) : bool :=
  match nat_of_ascii c with
  | 9 | 10 | 11 | 12 | 13 | 32 => true
  | _ => false
  end.

(** First loop of [strings.TrimSpace]: skip ASCII white space from the
    front.  Returns [s[start:]] and whether the scan stopped on a byte
    [>= utf8.RuneSelf]. *)
Fixpoint trimStart (s : string) : string * bool :=
  match s with
  | EmptyString => (EmptyString, false)
  | String c s' =>
      if (RuneSelf <=? nat_of_ascii c)%nat then (s, true)
      else if asciiSpace c then trimStart s'
      else (s, false)
  end.

(** Second loop of [strings.TrimSpace]: skip ASCII white space from the
    back.  Returns [s[:stop]] and whether the scan stopped on a byte
    [>= utf8.RuneSelf]. *)
Fixpoint trimStop (s : string) : string * bool :=
  match s with
  | EmptyString => (EmptyString, false)
  | String c s' =>
      match trimStop s' with
      | (EmptyString, false) =>
          if (RuneSelf <=? nat_of_ascii c)%nat then (String c EmptyString, true)
          else if asciiSpace c then (EmptyString, false)
          else (String c EmptyString, false)
      | (t, slow) => (String c t, slow)
      end
  end.

Section TrimSpace.
(** The Unicode slow path of [strings.TrimSpace], taken only when a
    byte [>= utf8.RuneSelf] is met: [TrimFunc(s, unicode.IsSpace)] and
    [TrimRightFunc(s, unicode.IsSpace)].  They are left abstract. *)
Variable TrimFunc_IsSpace : string -> string.
Variable TrimRightFunc_IsSpace : string -> string.

(** [strings.TrimSpace]. *)
Definition TrimSpace (s : string) : string :=
  let '(s1, slow1) := trimStart s in
  if slow1 then TrimFunc_IsSpace s1
  else
    let '(s2, slow2) := trimStop s1 in
    if slow2 then TrimRightFunc_IsSpace s2 else s2.
End TrimSpace.

End Strings.

(** ** float64 *)

Module Float64.

Local Open Scope Z_scope.

Definition prec : Z := 53.
Definition emax : Z := 1024.

Definition float64 := spec_float.

(** The zero value of a [float64] variable. *)
Definition zero : float64 := S754_zero false.

Definition one : float64 := SFone prec emax.

(** The conversion [float64(n)] of an integer: round to nearest, ties to
    even. *)
Definition of_int (n : Z) : float64 := binary_normalize prec emax n 0 false.

Definition div : float64 -> float64 -> float64 := SFdiv prec emax.

Definition leb : float64 -> float64 -> bool := SFleb.
Definition ltb : float64 -> float64 -> bool := SFltb.

(** [math.MaxInt]: a Go [int] has 64 bits. *)
Definition MaxInt : Z := 2 ^ 63 - 1.

(** The following definitions describe the result of [of_int] in terms of
    integer arithmetic. *)

(** [n / 2^sh] rounded to the nearest integer, ties to even. *)
Definition rne (n sh : Z) : Z :=
  let q := n / 2 ^ sh in
  match 2 * (n mod 2 ^ sh) ?= 2 ^ sh with
  | Lt => q
  | Gt => q + 1
  | Eq => if Z.even q then q else q + 1
  end.

(** Number of binary digits of a positive integer. *)
Definition bits (n : Z) : Z := Z.log2 n + 1.

(** Mantissa (53 digits) and exponent of the float nearest to a positive
    integer. *)
Definition normal (n : Z) : Z * Z :=
  let k := bits n in
  if k <=? 53 then (n * 2 ^ (53 - k), k - 53)
  else
    let m1 := rne n (k - 53) in
    if m1 <? 2 ^ 53 then (m1, k - 53) else (2 ^ 52, k - 52).

(** Order of two positive normal numbers given by mantissa and exponent. *)
Definition normal_le (x y : Z * Z) : Prop :=
  snd x < snd y \/ (snd x = snd y /\ fst x <= fst y).

End Float64.

(** ** Data model *)

(** The parts of the spotify client library's response types that the
    program reads.  [spotify.Numeric] is a Go [int]. *)
Record SimpleArtist := { artist_Name : string }.

Record SimpleAlbum := { album_Name : string }.

Record FullTrack := {
  track_Name : string;
  track_Duration : Z;
  track_Artists : list SimpleArtist;
  track_Album : SimpleAlbum
}.

Record CurrentlyPlaying := {
  playing_Progress : Z;
  playing_Item : option FullTrack        (* *FullTrack, nil is None *)
}.

(** [type TrackDetails struct]. *)
Record TrackDetails := {
  Name : string;
  Progress : Float64.float64;  (* between 0 and 1 *)
  Artists : string;            (* comma separated *)
  Album : string
}.

(** [type TrackControlAction string] and its three constants. *)
Definition TrackControlAction := string.
Definition Play : TrackControlAction := "play".
Definition Pause : TrackControlAction := "pause".
Definition Next : TrackControlAction := "next".

(** [type FifoPipeName string]. *)
Definition FifoPipeName := string.
Definition pipeTrackDetails : FifoPipeName := "fifoplayer-track".
Definition pipeTrackControl : FifoPipeName := "fifoplayer-control".

Definition error := string.

Definition Time := Z.

(** [time.Time.Before]. *)
Definition Before (t u : Time) : bool := (t <? u)%Z.

(** [oauth2.Token]. *)
Record Token := {
  AccessToken : string;
  RefreshToken : string;
  Expiry : Time
}.

(** A [*spotify.Client]: [spotify.New(authenticator.Client(ctx, token))]
    wraps the token it was made from.  Only that token is recorded: two
    clients made from one token are not told apart. *)
Record Client := { client_token : Token }.

(** ** External calls and process outcome *)

Inductive OpenFlag := O_RDONLY | O_WRONLY.

Inductive Event :=
| EvRefreshToken (t : Token)            (* authenticator.RefreshToken *)
| EvPlayerCurrentlyPlaying (c : Client) (* client.PlayerCurrentlyPlaying *)
| EvPlay (c : Client)                   (* client.Play *)
| EvPause (c : Client)                  (* client.Pause *)
| EvNext (c : Client)                   (* client.Next *)
| EvRemove (path : string)              (* os.Remove *)
| EvMkfifo (path : string)              (* exec.Command("mkfifo", path).Run *)
| EvOpenFile (path : string) (flag : OpenFlag) (* os.OpenFile *)
| EvWriteString (path s : string)       (* pipeFile.WriteString *)
| EvRead (path : string) (size : nat)   (* pipeFile.Read on a buffer *)
| EvClose (path : string)               (* deferred pipeFile.Close *)
| EvLog (msg : string)                  (* package log output *)
| EvSleep (seconds : Z).                (* time.Sleep *)

(** How a piece of code ends: it returns a value, or the process has
    exited ([os.Exit], reached through [log.Fatalf]). *)
Inductive Outcome (A : Type) :=
| Ret (a : A)
| Exit (code : Z).
Arguments Ret {A} a.
Arguments Exit {A} code.

Definition M (A : Type) : Type := list Event * Outcome A.

Definition ret {A} (a : A) : M A := ([], Ret a).

Definition bind {A B} (m : M A) (k : A -> M B) : M B :=
  match m with
  | (tr, Ret a) => let '(tr', o) := k a in (tr ++ tr', o)
  | (tr, Exit c) => (tr, Exit c)
  end.

Definition emit (e : Event) : M unit := ([e], Ret tt).

Notation "x <- m ;; k" := (bind m (fun x => k))
  (at level 61, m at next level, right associativity).
Notation "' pat <- m ;; k" := (bind m (fun x => match x with pat => k end))
  (at level 61, pat pattern, m at next level, right associativity).
Notation "m ;;; k" := (bind m (fun _ => k))
  (at level 61, right associativity).

Definition trace {A} (m : M A) : list Event := fst m.
Definition outcome {A} (m : M A) : Outcome A := snd m.

Definition nl : string := String "010"%char EmptyString.

(** [log.Fatalf(format, ...)]: print, then [os.Exit(1)]. *)
Definition Fatalf {A} (msg : string) : M A := ([EvLog msg], Exit 1%Z).

(** [log.Printf] / [log.Println]. *)
Definition Printf (msg : string) : M unit := emit (EvLog msg).

(** ** The code of [src/spyplayer.go] *)

(** *** [fetchTrackDetails] *)

(** The progress computation:
[[
    var progress float64
    if current.Item.Duration > 0 {
        progress = float64(current.Progress) / float64(current.Item.Duration)
    }
]] *)
Definition progress (current : CurrentlyPlaying) (item : FullTrack) : Float64.float64 :=
  if (0 <? track_Duration item)%Z
  then Float64.div (Float64.of_int (playing_Progress current))
                   (Float64.of_int (track_Duration item))
  else Float64.zero.

(** The loop over [current.Item.Artists], from index [i] on, with the
    string built so far:
[[
    for i, artist := range current.Item.Artists {
        if i > 0 { artistNames += ", " }
        artistNames += artist.Name
    }
]] *)
Fixpoint artistNames_loop (i : nat) (artistNames : string)
                          (artists : list SimpleArtist) : string :=
  match artists with
  | [] => artistNames
  | artist :: rest =>
      let artistNames := if (0 <? i)%nat then artistNames +++ ", " else artistNames in
      artistNames_loop (S i) (artistNames +++ artist_Name artist) rest
  end.

Definition artistNames (artists : list SimpleArtist) : string :=
  artistNames_loop 0 "" artists.

(** The [TrackDetails] built for a response that has an item. *)
Definition trackDetails (current : CurrentlyPlaying) (item : FullTrack) : TrackDetails :=
  {| Name := track_Name item;
     Progress := progress current item;
     Artists := artistNames (track_Artists item);
     Album := album_Name (track_Album item) |}.

(** [fetchTrackDetails], given what [client.PlayerCurrentlyPlaying] returns. *)
Definition fetchTrackDetails
    (response : option CurrentlyPlaying * option error)
    (client : Client) : M (option TrackDetails * option error) :=
  emit (EvPlayerCurrentlyPlaying client) ;;;
  let '(current, err) := response in
  match err with
  | Some e => ret (None, Some e)
  | None =>
      match current with
      | Some cur =>
          match playing_Item cur with
          | Some item => ret (Some (trackDetails cur item), None)
          | None => ret (None, None)
          end
      | None => ret (None, None)
      end
  end.

(** *** [writeTrackDetailsToPipe] *)

(** The line written: [fmt.Sprintf("%s - %s", details.Name, details.Artists)]
    or the fixed text. *)
Definition output (details : option TrackDetails) : string :=
  match details with
  | Some d => Name d +++ " - " +++ Artists d
  | None => "No track currently playing"
  end.

Definition writeTrackDetailsToPipe
    (open_err write_err : option error)
    (pipePath : string) (details : option TrackDetails) : M (option error) :=
  emit (EvOpenFile pipePath O_WRONLY) ;;;
  match open_err with
  | Some e => ret (Some e)
  | None =>
      emit (EvWriteString pipePath (output details)) ;;;
      emit (EvClose pipePath) ;;;
      ret write_err
  end.

(** *** [readTrackControlFromPipe] *)

(** What the pipe holds for one [Read]: the bytes a writer delivered, or a
    failing read. *)
Inductive PipeInput :=
| Delivered (data : string)
| ReadFails (e : error).

(** [io.EOF]. *)
Definition EOF : error := "EOF".

(** [pipeFile.Read(buf)] with [len(buf) = size]: at most [size] bytes;
    [0, io.EOF] when there is nothing to read.  Returns [buf[:n]]. *)
Definition File_Read (size : nat) (input : PipeInput) : string * option error :=
  match input with
  | ReadFails e => ("", Some e)
  | Delivered data =>
      match Strings.take size data with
      | EmptyString => ("", Some EOF)
      | bytes => (bytes, None)
      end
  end.

(** *** [createTempNamedPipe] *)

Definition createTempNamedPipe (mkfifo_err : option error) (name : FifoPipeName)
  : M (string * option error) :=
  let pipePath := "/tmp/" +++ name in
  emit (EvRemove pipePath) ;;;
  Printf ("creating named pipe" +++ nl) ;;;
  emit (EvMkfifo pipePath) ;;;
  match mkfifo_err with
  | Some e => ret ("", Some e)
  | None =>
      Printf ("created pipe " +++ pipePath +++ nl) ;;;
      ret (pipePath, None)
  end.

(** *** [refreshTokenAndClient] *)

(** The value returned by [authenticator.RefreshToken] is dropped by the
    source, so the token handed back is the one passed in. *)
Definition refreshTokenAndClient (token : Token) : M (Client * Token) :=
  emit (EvRefreshToken token) ;;;
  ret ({| client_token := token |}, token).

(** The variables [client, token] that both loops of [startFifoPipes] use. *)
Definition State : Type := Client * Token.

(** The check at the top of both loops:
[[
    if token.Expiry.Before(time.Now()) {
        client, token = refreshTokenAndClient(authenticator, token)
    }
]] *)
Definition refreshIfExpired (now : Time) (st : State) : M State :=
  let '(client, token) := st in
  if Before (Expiry token) now then refreshTokenAndClient token
  else ret (client, token).

(** *** The publisher loop (the goroutine of [startFifoPipes]) *)

(** What the outside world answers during one iteration. *)
Record PublisherEnv := {
  pub_now : Time;                                  (* time.Now() *)
  pub_response : option CurrentlyPlaying * option error;
                                                   (* PlayerCurrentlyPlaying *)
  pub_open : option error;                         (* os.OpenFile *)
  pub_write : option error                         (* WriteString *)
}.

Definition publisherIteration (pipe : string) (env : PublisherEnv) (st : State)
  : M State :=
  '(client, token) <- refreshIfExpired (pub_now env) st ;;
  '(details, err) <- fetchTrackDetails (pub_response env) client ;;
  match err with
  | Some e => Fatalf ("unable to fetch track details: " +++ e)
  | None =>
      err <- writeTrackDetailsToPipe (pub_open env) (pub_write env) pipe details ;;
      match err with
      | Some e => Fatalf ("unable to write to named pipe: " +++ e)
      | None =>
          emit (EvSleep 3) ;;;
          ret (client, token)
      end
  end.

(** The [for] loop, run against the answers of the first [length envs]
    iterations. *)
Fixpoint publisherLoop (pipe : string) (envs : list PublisherEnv) (st : State)
  : M State :=
  match envs with
  | [] => ret st
  | env :: rest =>
      st' <- publisherIteration pipe env st ;;
      publisherLoop pipe rest st'
  end.

Definition publisherThread (mkfifo_err : option error)
    (envs : list PublisherEnv) (st : State) : M State :=
  '(pipe, err) <- createTempNamedPipe mkfifo_err pipeTrackDetails ;;
  match err with
  | Some e => Fatalf ("could not make named pipe: " +++ e)
  | None => publisherLoop pipe envs st
  end.

(** *** The control loop (the main thread of [startFifoPipes]) *)

Record ControlEnv := {
  ctl_open : option error;     (* os.OpenFile *)
  ctl_input : PipeInput;       (* pipeFile.Read *)
  ctl_now : Time;              (* time.Now() *)
  ctl_api : option error       (* client.Play / Pause / Next *)
}.

Section Control.
Variable TrimFunc_IsSpace : string -> string.
Variable TrimRightFunc_IsSpace : string -> string.

Definition readTrackControlFromPipe
    (open_err : option error) (input : PipeInput) (pipePath : string)
  : M (TrackControlAction * option error) :=
  emit (EvOpenFile pipePath O_RDONLY) ;;;
  match open_err with
  | Some e => ret ("", Some e)
  | None =>
      emit (EvRead pipePath 128) ;;;
      let '(bytes, err) := File_Read 128 input in
      emit (EvClose pipePath) ;;;
      match err with
      | Some e => ret ("", Some e)
      | None =>
          ret (Strings.TrimSpace TrimFunc_IsSpace TrimRightFunc_IsSpace bytes,
               None)
      end
  end.

(** The [switch action] statement. *)
Definition dispatch (api_err : option error) (client : Client)
                    (action : TrackControlAction) : M unit :=
  if (action =? Play)%string then
    emit (EvPlay client) ;;;
    match api_err with
    | Some e => Printf ("failed to play track: " +++ e +++ nl)
    | None => Printf ("playing track" +++ nl)
    end
  else if (action =? Pause)%string then
    emit (EvPause client) ;;;
    match api_err with
    | Some e => Printf ("failed to pause track: " +++ e +++ nl)
    | None => Printf ("paused track" +++ nl)
    end
  else if (action =? Next)%string then
    emit (EvNext client) ;;;
    match api_err with
    | Some e => Printf ("failed to skip track: " +++ e +++ nl)
    | None => Printf ("skipped track" +++ nl)
    end
  else ret tt.

Definition controlIteration (pipe : string) (env : ControlEnv) (st : State)
  : M State :=
  '(action, err) <- readTrackControlFromPipe (ctl_open env) (ctl_input env) pipe ;;
  match err with
  | Some e => Fatalf ("unable to fetch track details: " +++ e)
  | None =>
      '(client, token) <- refreshIfExpired (ctl_now env) st ;;
      dispatch (ctl_api env) client action ;;;
      ret (client, token)
  end.

Fixpoint controlLoop (pipe : string) (envs : list ControlEnv) (st : State)
  : M State :=
  match envs with
  | [] => ret st
  | env :: rest =>
      st' <- controlIteration pipe env st ;;
      controlLoop pipe rest st'
  end.

Definition controlThread (mkfifo_err : option error)
    (envs : list ControlEnv) (st : State) : M State :=
  '(pipe, err) <- createTempNamedPipe mkfifo_err pipeTrackControl ;;
  match err with
  | Some e => Fatalf ("could not make named pipe: " +++ e)
  | None => controlLoop pipe envs st
  end.

End Control.

(** Events that are calls of the playback API. *)
Definition isApiCall (e : Event) : bool :=
  match e with
  | EvPlayerCurrentlyPlaying _ | EvPlay _ | EvPause _ | EvNext _ => true
  | _ => false
  end.

Definition isRefresh (e : Event) : bool :=
  match e with EvRefreshToken _ => true | _ => false end.

Definition isLog (e : Event) : bool :=
  match e with EvLog _ => true | _ => false end.

Definition isWrite (e : Event) : bool :=
  match e with EvWriteString _ _ => true | _ => false end.

(** The trace and the client left by the expiry check of both loops. *)
Definition refreshEvents (now : Time) (token : Token) : list Event :=
  if Before (Expiry token) now then [EvRefreshToken token] else [].

Definition refreshedClient (now : Time) (st : State) : Client :=
  if Before (Expiry (snd st)) now then {| client_token := snd st |} else fst st.

(** The details [fetchTrackDetails] returns for a response without error:
    [current != nil && current.Item != nil]. *)
Definition playingDetails (current : option CurrentlyPlaying) : option TrackDetails :=
  match current with
  | Some cur =>
      match playing_Item cur with
      | Some item => Some (trackDetails cur item)
      | None => None
      end
  | None => None
  end.

(** The trace of a successful [readTrackControlFromPipe]. *)
Definition readEvents (pipe : string) : list Event :=
  [EvOpenFile pipe O_RDONLY; EvRead pipe 128; EvClose pipe].

Definition isFetch (e : Event) : bool :=
  match e with EvPlayerCurrentlyPlaying _ => true | _ => false end.

(** Whether [readTrackControlFromPipe] gets to return an action: the open
    and the read both succeed. *)
Definition readOk (env : ControlEnv) : bool :=
  match ctl_open env, snd (File_Read 128 (ctl_input env)) with
  | None, None => true
  | _, _ => false
  end.

(** A run [whole] makes the calls [tr] and then goes on as [next]. *)
Definition continuesWith {A} (whole : M A) (tr : list Event) (next : M A) : Prop :=
  whole = (tr ++ trace next, outcome next).

(** [strings.Join(names, sep)], the joined string the specification speaks
    of; the source builds it with the loop [artistNames_loop]. *)
Definition Join (names : list string) (sep : string) : string :=
  String.concat sep names.

(** What follows the first name in a join: a separator before every name. *)
Fixpoint Join_rest (names : list string) : string :=
  match names with
  | [] => ""
  | x :: rest => ", " +++ x +++ Join_rest rest
  end.

(** Sum of a list of counts. *)
Definition total (l : list nat) : nat := fold_right Nat.add 0%nat l.

(** ** Concrete inputs *)

Module Examples.

Definition token : Token :=
  {| AccessToken := "access"; RefreshToken := "refresh"; Expiry := 100%Z |}.

Definition state : State := ({| client_token := token |}, token).

Definition trackPipe : string := "/tmp/fifoplayer-track".
Definition controlPipe : string := "/tmp/fifoplayer-control".

Definition songA : FullTrack :=
  {| track_Name := "Song A";
     track_Duration := 3%Z;
     track_Artists := [ {| artist_Name := "X" |}; {| artist_Name := "Y" |} ];
     track_Album := {| album_Name := "Album" |} |}.

(** Position 5 ms in a track of 3 ms. *)
Definition overrun : CurrentlyPlaying :=
  {| playing_Progress := 5%Z; playing_Item := Some songA |}.

(** Position 1 ms in a track of 3 ms. *)
Definition playingSongA : CurrentlyPlaying :=
  {| playing_Progress := 1%Z; playing_Item := Some songA |}.

Definition nothingPlaying : CurrentlyPlaying :=
  {| playing_Progress := 0%Z; playing_Item := None |}.

(** One artist whose name contains a comma followed by a blank. *)
Definition tyler : list SimpleArtist :=
  [ {| artist_Name := "Tyler, The Creator" |} ].

(** A publisher iteration at the very instant the token expires. *)
Definition atExpiry : PublisherEnv :=
  {| pub_now := 100%Z;
     pub_response := (Some playingSongA, None);
     pub_open := None;
     pub_write := None |}.

Definition idle : PublisherEnv :=
  {| pub_now := 50%Z;
     pub_response := (Some nothingPlaying, None);
     pub_open := None;
     pub_write := None |}.

Definition fetchFails : PublisherEnv :=
  {| pub_now := 50%Z;
     pub_response := (None, Some "timeout");
     pub_open := None;
     pub_write := None |}.

Definition writeFails : PublisherEnv :=
  {| pub_now := 50%Z;
     pub_response := (Some playingSongA, None);
     pub_open := None;
     pub_write := Some "broken pipe" |}.

(** Publisher iterations after the token has expired. *)
Definition late : PublisherEnv :=
  {| pub_now := 101%Z;
     pub_response := (Some nothingPlaying, None);
     pub_open := None;
     pub_write := None |}.

Definition later : PublisherEnv :=
  {| pub_now := 104%Z;
     pub_response := (Some playingSongA, None);
     pub_open := None;
     pub_write := None |}.

(** A control iteration fed [text], whose API call (if any) fails. *)
Definition command (text : string) : ControlEnv :=
  {| ctl_open := None;
     ctl_input := Delivered text;
     ctl_now := 50%Z;
     ctl_api := Some "403 Forbidden" |}.


(** A writer that opens the control pipe and closes it without writing. *)
Definition silentWriter : ControlEnv := command "".

(** A payload of 131 bytes: 123 blanks, then "pausexyz". *)
Definition overlong : string :=
  String.concat "" (repeat " " 123) +++ "pausexyz".

(** A process environment with the three settings. *)
Definition getenv (key : string) : string :=
  if (key =? "SPOTIFY_ID")%string then "id"
  else if (key =? "SPOTIFY_SECRET")%string then "secret"
  else if (key =? "SPOTIFY_REDIRECT")%string then "http://localhost:8080"
  else "".

(** The same without the secret. *)
Definition getenvNoSecret (key : string) : string :=
  if (key =? "SPOTIFY_SECRET")%string then "" else getenv key.

(** A callback whose query is [code=abc], and one without a code. *)
Definition withCode (key : string) : list string :=
  if (key =? "code")%string then ["abc"] else [].

Definition withoutCode (key : string) : list string := [].

(** A stand-in for the Unicode slow path of [strings.TrimSpace]. *)
Definition slow (s : string) : string := s.

End Examples.

(** ** Reading traces *)

Definition count (f : Event -> bool) (tr : list Event) : nat :=
  List.length (filter f tr).

Definition isOpen (e : Event) : bool :=
  match e with EvOpenFile _ _ => true | _ => false end.

Definition isClose (e : Event) : bool :=
  match e with EvClose _ => true | _ => false end.

Definition isRead (e : Event) : bool :=
  match e with EvRead _ _ => true | _ => false end.

Definition isSleep (e : Event) : bool :=
  match e with EvSleep _ => true | _ => false end.

(** The playback call the [switch] of the control loop makes for an
    action, if any. *)
Definition callOf (client : Client) (action : TrackControlAction) : option Event :=
  if (action =? Play)%string then Some (EvPlay client)
  else if (action =? Pause)%string then Some (EvPause client)
  else if (action =? Next)%string then Some (EvNext client)
  else None.

(** The calls a publisher loop on [pipe] can make. *)
Definition publisherEvent (pipe : string) (e : Event) : bool :=
  match e with
  | EvRefreshToken _ | EvPlayerCurrentlyPlaying _ | EvLog _ => true
  | EvSleep d => (d =? 3)%Z
  | EvOpenFile p O_WRONLY | EvWriteString p _ | EvClose p => (p =? pipe)%string
  | _ => false
  end.

(** The calls a control loop on [pipe] can make. *)
Definition controlEvent (pipe : string) (e : Event) : bool :=
  match e with
  | EvRefreshToken _ | EvPlay _ | EvPause _ | EvNext _ | EvLog _ => true
  | EvOpenFile p O_RDONLY | EvClose p => (p =? pipe)%string
  | EvRead p size => (p =? pipe)%string && (size =? 128)%nat
  | _ => false
  end.

(** Strings of ASCII white space. *)
Fixpoint allSpace (s : string) : bool :=
  match s with
  | EmptyString => true
  | String c s' => Strings.asciiSpace c && allSpace s'
  end.

(** A single-byte rune that is not white space. *)
Definition inkByte (c : ascii) : bool :=
  (nat_of_ascii c <? Strings.RuneSelf)%nat && negb (Strings.asciiSpace c).

Fixpoint lastByte (s : string) : option ascii :=
  match s with
  | EmptyString => None
  | String c EmptyString => Some c
  | String _ s' => lastByte s'
  end.

(** A non-empty string whose first and last bytes are ASCII and not white
    space. *)
Definition inkEnds (w : string) : bool :=
  match w, lastByte w with
  | String c _, Some d => inkByte c && inkByte d
  | _, _ => false
  end.

(** Sum of the lengths of a list of strings. *)
Fixpoint totalLength (names : list string) : nat :=
  match names with
  | [] => 0
  | x :: rest => String.length x + totalLength rest
  end.

(** ** Start-up: [main], [setupAuthenticator], [setupClient] *)

(** The three scopes [setupAuthenticator] asks for. *)
Inductive Scope :=
| ScopeUserReadCurrentlyPlaying
| ScopeUserReadPlaybackState
| ScopeUserModifyPlaybackState.

(** What [spotifyauth.New] is configured with. *)
Record Authenticator := {
  clientID : string;
  clientSecret : string;
  redirectURL : string;
  scopes : list Scope
}.

(** [url.Values] and [Values.Get]: the first value of a key, or "". *)
Definition Values := string -> list string.

Definition Values_Get (v : Values) (key : string) : string :=
  match v key with
  | [] => ""
  | x :: _ => x
  end.

(** External calls of the start-up code.  The calls of the control thread
    are carried along as [SvLoop]. *)
Inductive StartupEvent :=
| SvLoadDotenv                                (* godotenv.Load *)
| SvOpenAuthURL (a : Authenticator) (state : string)
                                  (* exec "open" on authenticator.AuthURL *)
| SvListen (addr : string)                    (* srv.ListenAndServe *)
| SvRespond (status : nat) (body : string)    (* answer to one callback *)
| SvShutdown                                  (* srv.Shutdown *)
| SvExchange (a : Authenticator) (code : string) (* authenticator.Exchange *)
| SvGo                                        (* go func() { ... }() *)
| SvLog (msg : string)                        (* package log output *)
| SvLoop (e : Event).

Definition MS (A : Type) : Type := list StartupEvent * Outcome A.

Definition retS {A} (a : A) : MS A := ([], Ret a).

Definition bindS {A B} (m : MS A) (k : A -> MS B) : MS B :=
  match m with
  | (tr, Ret a) => let '(tr', o) := k a in (tr ++ tr', o)
  | (tr, Exit c) => (tr, Exit c)
  end.

Definition emitS (e : StartupEvent) : MS unit := ([e], Ret tt).

Notation "x <~ m ;; k" := (bindS m (fun x => k))
  (at level 61, m at next level, right associativity).
Notation "m ~;; k" := (bindS m (fun _ => k))
  (at level 61, right associativity).

(** [log.Fatal] / [log.Fatalf] during start-up. *)
Definition FatalS {A} (msg : string) : MS A := ([SvLog msg], Exit 1%Z).

(** A computation of the loops, run as part of the main thread. *)
Definition liftS {A} (m : M A) : MS A := (map SvLoop (fst m), snd m).

(** [setupAuthenticator], given the result of [godotenv.Load] and the
    process environment as [os.Getenv] sees it afterwards. *)
Definition setupAuthenticator (load_err : option error) (Getenv : string -> string)
  : MS Authenticator :=
  emitS SvLoadDotenv ~;;
  match load_err with
  | Some _ => FatalS "Error loading .env file"
  | None =>
      let clientID := Getenv "SPOTIFY_ID" in
      let clientSecret := Getenv "SPOTIFY_SECRET" in
      let redirectURI := Getenv "SPOTIFY_REDIRECT" in
      if (clientID =? "")%string || (clientSecret =? "")%string
         || (redirectURI =? "")%string
      then FatalS "Missing SPOTIFY_ID, SPOTIFY_SECRET, or SPOTIFY_REDIRECT environment variables"
      else retS {| clientID := clientID;
                   clientSecret := clientSecret;
                   redirectURL := redirectURI;
                   scopes := [ScopeUserReadCurrentlyPlaying;
                              ScopeUserReadPlaybackState;
                              ScopeUserModifyPlaybackState] |}
  end.

(** The handler [setupClient] registers for ["/"]: the answer to one
    callback request, and the code it sends on [codeCh], if any. *)
Definition callbackHandler (query : Values) : StartupEvent * option string :=
  let code := Values_Get query "code" in
  if (code =? "")%string
  then (SvRespond 400 ("No code in callback" +++ nl), None)
  else (SvRespond 200 "Login successful! You may close this window.", Some code).

(** [code := <-codeCh] against callback requests served one after the
    other: the answers given, and the code received, if one has come. *)
Fixpoint awaitCode (requests : list Values) : list StartupEvent * option string :=
  match requests with
  | [] => ([], None)
  | query :: rest =>
      match callbackHandler query with
      | (answer, Some code) => ([answer], Some code)
      | (answer, None) =>
          let '(answers, code) := awaitCode rest in (answer :: answers, code)
      end
  end.

(** What the outside world answers during [setupClient]. *)
Record ClientEnv := {
  open_err : option error;                 (* exec.Command("open", url).Run *)
  listen_err : option error;               (* srv.ListenAndServe *)
  requests : list Values;                  (* the callbacks that arrive *)
  exchanged : Token * option error         (* authenticator.Exchange *)
}.

(** [setupClient].  The result is [None] as long as no callback has
    brought a code: the function is then still blocked on [<-codeCh]. *)
Definition setupClient (authenticator : Authenticator) (env : ClientEnv)
  : MS (option State) :=
  emitS (SvOpenAuthURL authenticator "state-token") ~;;
  match open_err env with
  | Some _ => FatalS "could not open the spotifyAuthUrl"
  | None =>
      emitS (SvListen ":8080") ~;;
      match listen_err env with
      | Some e => FatalS ("HTTP server error: " +++ e)
      | None =>
          let '(answers, received) := awaitCode (requests env) in
          (answers, Ret tt) ~;;
          match received with
          | None => retS None
          | Some code =>
              emitS SvShutdown ~;;
              emitS (SvExchange authenticator code) ~;;
              let '(token, err) := exchanged env in
              match err with
              | Some e => FatalS ("could not get token: " +++ e)
              | None => retS (Some ({| client_token := token |}, token))
              end
          end
      end
  end.

Section Main.
Variable TrimFunc_IsSpace : string -> string.
Variable TrimRightFunc_IsSpace : string -> string.

(** The main thread of [startFifoPipes]: [setupClient], the start of the
    publisher goroutine, then the control thread.  What the goroutine
    does is not part of this trace. *)
Definition startFifoPipes (authenticator : Authenticator) (env : ClientEnv)
    (mkfifo_err : option error) (envs : list ControlEnv) : MS (option State) :=
  started <~ setupClient authenticator env ;;
  match started with
  | None => retS None
  | Some st =>
      emitS SvGo ~;;
      st' <~ liftS (controlThread TrimFunc_IsSpace TrimRightFunc_IsSpace
                      mkfifo_err envs st) ;;
      retS (Some st')
  end.

(** [main]. *)
Definition main (load_err : option error) (Getenv : string -> string)
    (env : ClientEnv) (mkfifo_err : option error) (envs : list ControlEnv)
  : MS (option State) :=
  authenticator <~ setupAuthenticator load_err Getenv ;;
  startFifoPipes authenticator env mkfifo_err envs.

End Main.

Definition isExchange (e : StartupEvent) : bool :=
  match e with SvExchange _ _ => true | _ => false end.

Definition isLoopEvent (e : StartupEvent) : bool :=
  match e with SvLoop _ => true | _ => false end.

Definition isListen (e : StartupEvent) : bool :=
  match e with SvListen _ => true | _ => false end.

(** The first non-empty [code] parameter among callback requests. *)
Fixpoint firstCode (requests : list Values) : option string :=
  match requests with
  | [] => None
  | query :: rest =>
      if (Values_Get query "code" =? "")%string then firstCode rest
      else Some (Values_Get query "code")
  end.

(** Inputs of the start-up code. *)
Module StartupExamples.

Definition authenticator : Authenticator :=
  {| clientID := "id";
     clientSecret := "secret";
     redirectURL := "http://localhost:8080";
     scopes := [ScopeUserReadCurrentlyPlaying;
                ScopeUserReadPlaybackState;
                ScopeUserModifyPlaybackState] |}.

(** A stray request without a code, then the real callback. *)
Definition login : ClientEnv :=
  {| open_err := None;
     listen_err := None;
     requests := [Examples.withoutCode; Examples.withCode];
     exchanged := (Examples.token, None) |}.

End StartupExamples.

(** ** float64: further notions *)

Module Float64Ext.

Local Open Scope Z_scope.

(** [math.MinInt]. *)
Definition MinInt : Z := - 2 ^ 63.

(** Unary minus on [float64]. *)
Definition opp : Float64.float64 -> Float64.float64 := SFopp.

(** Neither NaN nor an infinity. *)
Definition is_number (f : Float64.float64) : bool :=
  match f with
  | S754_zero _ | S754_finite _ _ _ => true
  | _ => false
  end.

(** The following definitions describe the result of [Float64.div] in
    terms of integer arithmetic. *)

(** [a / b] rounded to the nearest integer, ties to even. *)
Definition rnd (a b : Z) : Z :=
  let q := a / b in
  match 2 * (a mod b) ?= b with
  | Lt => q
  | Gt => q + 1
  | Eq => if Z.even q then q else q + 1
  end.

(** Mantissa and exponent of the float nearest to [a / b * 2^e], for a
    quotient of at least 53 digits. *)
Definition FL (a b e : Z) : Z * Z :=
  let sh := Float64.bits (a / b) - 53 in
  let m1 := rnd a (b * 2 ^ sh) in
  if m1 <? 2 ^ 53 then (m1, e + sh) else (2 ^ 52, e + sh + 1).

End Float64Ext.

(** The response [current] with the position negated. *)
Definition negated (current : CurrentlyPlaying) : CurrentlyPlaying :=
  {| playing_Progress := (- playing_Progress current)%Z;
     playing_Item := playing_Item current |}.

(** ** Reading a published line back *)

(** [s[n:]] for [n] clamped to [len(s)]. *)
Fixpoint drop (n : nat) (s : string) : string :=
  match n, s with
  | S n', String _ s' => drop n' s'
  | _, _ => s
  end.

(** [strings.Cut(s, sep)]: the text before and after the first [sep] in
    [s], or nothing when [sep] does not occur. *)
Fixpoint Cut (s sep : string) : option (string * string) :=
  if Strings.HasPrefix s sep then Some (EmptyString, drop (String.length sep) s)
  else
    match s with
    | EmptyString => None
    | String c s' =>
        match Cut s' sep with
        | Some (before, after) => Some (String c before, after)
        | None => None
        end
    end.

(** * Properties *)

(** ** Strings *)

Lemma append_assoc (a b c : string) : (a +++ b) +++ c = a +++ (b +++ c).
Proof. induction a as [|x a IH]; simpl; [reflexivity | now rewrite IH]. Qed.

Lemma append_empty_r (a : string) : a +++ "" = a.
Proof. induction a as [|x a IH]; simpl; [reflexivity | now rewrite IH]. Qed.

Lemma length_take (n : nat) (s : string) :
  (String.length (Strings.take n s) <= n)%nat.
Proof.
  revert s; induction n as [|n IH]; intros [|c s]; simpl; try lia.
  specialize (IH s); lia.
Qed.

(** The loop of [fetchTrackDetails] started in the middle of the list
    appends a separator and a name for every remaining artist. *)
Lemma artistNames_loop_S (i : nat) (acc : string) (artists : list SimpleArtist) :
  artistNames_loop (S i) acc artists =
  acc +++ Join_rest (map artist_Name artists).
Proof.
  revert i acc; induction artists as [|a rest IH]; intros i acc.
  - simpl. now rewrite append_empty_r.
  - cbn [artistNames_loop map Join_rest Nat.ltb Nat.leb].
    rewrite IH. now rewrite !append_assoc.
Qed.

Lemma Join_cons (x : string) (l : list string) :
  Join (x :: l) ", " = x +++ Join_rest l.
Proof.
  unfold Join. revert x; induction l as [|y l IH]; intros x.
  - simpl. now rewrite append_empty_r.
  - change (String.concat ", " (x :: y :: l))
      with (x +++ ", " +++ String.concat ", " (y :: l)).
    now rewrite IH.
Qed.

(** The loop computes the join of the names. *)
Lemma artistNames_Join (artists : list SimpleArtist) :
  artistNames artists = Join (map artist_Name artists) ", ".
Proof.
  unfold artistNames. destruct artists as [|a rest]; [reflexivity|].
  cbn [artistNames_loop map Nat.ltb Nat.leb]. rewrite artistNames_loop_S.
  now rewrite Join_cons.
Qed.

(** A separator occurrence cannot start on the last byte of a name that is
    followed by a separator, nor on the blank of a separator. *)
Lemma HasPrefix_sep_append (c : ascii) (name rest : string) :
  Strings.HasPrefix (String c (name +++ ", " +++ rest)) ", " =
  Strings.HasPrefix (String c name) ", ".
Proof.
  cbn [Strings.HasPrefix]. destruct (Ascii.eqb c ","); [|reflexivity].
  destruct name as [|d name]; cbn; [reflexivity|].
  now destruct (Ascii.eqb d " ").
Qed.

Lemma occurrences_name_sep (name rest : string) :
  Strings.occurrences ", " (name +++ ", " +++ rest) =
  (Strings.occurrences ", " name + 1 + Strings.occurrences ", " rest)%nat.
Proof.
  induction name as [|c name IH].
  - destruct rest as [|d rest]; cbn; [reflexivity|].
    destruct (Ascii.eqb d ","); reflexivity.
  - change (String c name +++ ", " +++ rest)
      with (String c (name +++ ", " +++ rest)).
    cbn [Strings.occurrences]. rewrite HasPrefix_sep_append, IH. lia.
Qed.

Lemma occurrences_Join_cons (x : string) (names : list string) :
  Strings.occurrences ", " (Join (x :: names) ", ") =
  (List.length names + total (map (Strings.occurrences ", ") (x :: names)))%nat.
Proof.
  rewrite Join_cons. revert x; induction names as [|y names IH]; intros x.
  - cbn [Join_rest]. rewrite append_empty_r. cbn. lia.
  - cbn [Join_rest]. rewrite occurrences_name_sep, IH. cbn. lia.
Qed.

(** Splitting a join at the separators gives back the names, when no name
    holds a separator of its own. *)
Lemma Split_from_name (piece x : string) (l : list string) :
  Strings.occurrences ", " x = 0%nat ->
  (forall piece', Strings.Split_from "," " " piece' (Join_rest l) = piece' :: l) ->
  Strings.Split_from "," " " piece (x +++ Join_rest l) = (piece +++ x) :: l.
Proof.
  intros Hx Hl. revert piece Hx.
  induction x as [|c x IH]; intros piece Hx.
  - cbn [String.append]. rewrite Hl. now rewrite append_empty_r.
  - cbn [Strings.occurrences] in Hx.
    assert (Hc : Strings.HasPrefix (String c x) ", " = false)
      by (destruct (Strings.HasPrefix (String c x) ", "); [discriminate|reflexivity]).
    assert (Hx' : Strings.occurrences ", " x = 0%nat)
      by (destruct (Strings.HasPrefix (String c x) ", "); [discriminate|exact Hx]).
    specialize (IH (piece +++ String c "") Hx').
    rewrite append_assoc in IH. cbn [String.append] in IH.
    change (String c x +++ Join_rest l) with (String c (x +++ Join_rest l)).
    cbn [Strings.Split_from].
    destruct (x +++ Join_rest l) as [|d rest] eqn:E; [exact IH|].
    destruct (Ascii.eqb c "," && Ascii.eqb d " ") eqn:Eb; [|exact IH].
    exfalso. apply andb_true_iff in Eb as [Ec Ed].
    cbn [Strings.HasPrefix] in Hc. rewrite Ec in Hc. cbn [andb] in Hc.
    destruct x as [|d' x].
    + cbn [String.append] in E. destruct l as [|y l]; cbn [Join_rest] in E;
        [discriminate|]. cbn in E. injection E as <- _. discriminate.
    + cbn [String.append] in E. injection E as -> _.
      rewrite Ed in Hc. discriminate.
Qed.

Lemma Split_from_Join_rest (l : list string) :
  (forall x, In x l -> Strings.occurrences ", " x = 0%nat) ->
  forall piece, Strings.Split_from "," " " piece (Join_rest l) = piece :: l.
Proof.
  induction l as [|y l IH]; intros Hl piece; [reflexivity|].
  cbn [Join_rest]. change (", " +++ y +++ Join_rest l)
    with (String "," (String " " (y +++ Join_rest l))).
  cbn [Strings.Split_from Ascii.eqb Bool.eqb andb]. f_equal.
  rewrite Split_from_name.
  - reflexivity.
  - apply Hl. now left.
  - apply IH. intros x Hx. apply Hl. now right.
Qed.

Lemma SplitCommaSpace_Join (x : string) (l : list string) :
  (forall y, In y (x :: l) -> Strings.occurrences ", " y = 0%nat) ->
  Strings.SplitCommaSpace (Join (x :: l) ", ") = x :: l.
Proof.
  intros H. unfold Strings.SplitCommaSpace. rewrite Join_cons.
  rewrite Split_from_name.
  - reflexivity.
  - apply H. now left.
  - apply Split_from_Join_rest. intros y Hy. apply H. now right.
Qed.

(** ** The trace monad *)

Lemma bind_Ret {A B} (tr : list Event) (a : A) (k : A -> M B) :
  bind (tr, Ret a) k = (tr ++ trace (k a), outcome (k a)).
Proof. unfold bind, trace, outcome. now destruct (k a). Qed.

Lemma createTempNamedPipe_ok (name : FifoPipeName) :
  createTempNamedPipe None name =
  ([EvRemove ("/tmp/" +++ name);
    EvLog ("creating named pipe" +++ nl);
    EvMkfifo ("/tmp/" +++ name);
    EvLog ("created pipe " +++ ("/tmp/" +++ name) +++ nl)],
   Ret ("/tmp/" +++ name, None)).
Proof. reflexivity. Qed.

Lemma refreshIfExpired_eq (now : Time) (st : State) :
  refreshIfExpired now st =
  (refreshEvents now (snd st), Ret (refreshedClient now st, snd st)).
Proof.
  destruct st as [client token].
  unfold refreshIfExpired, refreshEvents, refreshedClient; simpl.
  now destruct (Before (Expiry token) now).
Qed.

Lemma fetchTrackDetails_eq response client :
  fetchTrackDetails response client =
  ([EvPlayerCurrentlyPlaying client],
   Ret match snd response with
       | Some e => (None, Some e)
       | None => (playingDetails (fst response), None)
       end).
Proof.
  destruct response as [[cur|] [e|]]; try reflexivity.
  unfold fetchTrackDetails, playingDetails; simpl.
  now destruct (playing_Item cur).
Qed.

(** ** The publisher loop, case by case *)

Lemma publisherIteration_eq (pipe : string) (env : PublisherEnv) (st : State) :
  publisherIteration pipe env st =
  let client := refreshedClient (pub_now env) st in
  let pre := refreshEvents (pub_now env) (snd st)
             ++ [EvPlayerCurrentlyPlaying client] in
  let line := output (playingDetails (fst (pub_response env))) in
  match snd (pub_response env), pub_open env, pub_write env with
  | Some e, _, _ =>
      (pre ++ [EvLog ("unable to fetch track details: " +++ e)], Exit 1%Z)
  | None, Some e, _ =>
      (pre ++ [EvOpenFile pipe O_WRONLY;
               EvLog ("unable to write to named pipe: " +++ e)], Exit 1%Z)
  | None, None, Some e =>
      (pre ++ [EvOpenFile pipe O_WRONLY; EvWriteString pipe line; EvClose pipe;
               EvLog ("unable to write to named pipe: " +++ e)], Exit 1%Z)
  | None, None, None =>
      (pre ++ [EvOpenFile pipe O_WRONLY; EvWriteString pipe line; EvClose pipe;
               EvSleep 3], Ret (client, snd st))
  end.
Proof.
  unfold publisherIteration.
  rewrite refreshIfExpired_eq, bind_Ret. cbv beta iota.
  rewrite fetchTrackDetails_eq, bind_Ret.
  unfold writeTrackDetailsToPipe.
  destruct (snd (pub_response env)) as [e|]; simpl.
  - now rewrite <- app_assoc.
  - destruct (pub_open env) as [e|]; simpl.
    + now rewrite <- app_assoc.
    + destruct (pub_write env) as [e|]; simpl; now rewrite <- app_assoc.
Qed.

Lemma publisherLoop_cons pipe env rest st :
  publisherLoop pipe (env :: rest) st =
  bind (publisherIteration pipe env st) (publisherLoop pipe rest).
Proof. reflexivity. Qed.

(** In the goroutine the loop runs on the pipe [/tmp/fifoplayer-track]. *)
Lemma publisherThread_runs_loop envs st :
  continuesWith (publisherThread None envs st)
    [EvRemove "/tmp/fifoplayer-track";
     EvLog ("creating named pipe" +++ nl);
     EvMkfifo "/tmp/fifoplayer-track";
     EvLog ("created pipe /tmp/fifoplayer-track" +++ nl)]
    (publisherLoop "/tmp/fifoplayer-track" envs st).
Proof.
  unfold continuesWith, publisherThread.
  rewrite createTempNamedPipe_ok, bind_Ret. reflexivity.
Qed.

Lemma filter_refreshEvents (f : Event -> bool) now token :
  (forall t, f (EvRefreshToken t) = false) ->
  filter f (refreshEvents now token) = [].
Proof.
  intros Hf. unfold refreshEvents.
  destruct (Before (Expiry token) now); simpl; [now rewrite Hf | reflexivity].
Qed.

(** ** The control loop, case by case *)

Section ControlFacts.
Variable F1 F2 : string -> string.

Lemma readTrackControlFromPipe_eq open_err input pipe :
  readTrackControlFromPipe F1 F2 open_err input pipe =
  match open_err with
  | Some e => ([EvOpenFile pipe O_RDONLY], Ret ("", Some e))
  | None =>
      (readEvents pipe,
       Ret match File_Read 128 input with
           | (_, Some e) => ("", Some e)
           | (bytes, None) => (Strings.TrimSpace F1 F2 bytes, None)
           end)
  end.
Proof.
  unfold readTrackControlFromPipe.
  destruct open_err as [e|]; [reflexivity|].
  destruct (File_Read 128 input) as [bytes [e|]]; reflexivity.
Qed.

Lemma dispatch_outcome api client action :
  outcome (dispatch api client action) = Ret tt.
Proof.
  unfold dispatch.
  destruct (action =? Play)%string; [now destruct api|].
  destruct (action =? Pause)%string; [now destruct api|].
  destruct (action =? Next)%string; [now destruct api|].
  reflexivity.
Qed.

Lemma dispatch_other api client action :
  action <> Play -> action <> Pause -> action <> Next ->
  dispatch api client action = ret tt.
Proof.
  intros H1 H2 H3. unfold dispatch.
  apply String.eqb_neq in H1, H2, H3. now rewrite H1, H2, H3.
Qed.

Lemma controlIteration_eq pipe env st :
  controlIteration F1 F2 pipe env st =
  match outcome (readTrackControlFromPipe F1 F2 (ctl_open env) (ctl_input env) pipe) with
  | Ret (action, None) =>
      let client := refreshedClient (ctl_now env) st in
      (readEvents pipe ++ refreshEvents (ctl_now env) (snd st)
         ++ trace (dispatch (ctl_api env) client action),
       Ret (client, snd st))
  | Ret (_, Some e) =>
      (trace (readTrackControlFromPipe F1 F2 (ctl_open env) (ctl_input env) pipe)
         ++ [EvLog ("unable to fetch track details: " +++ e)], Exit 1%Z)
  | Exit c =>
      (trace (readTrackControlFromPipe F1 F2 (ctl_open env) (ctl_input env) pipe),
       Exit c)
  end.
Proof.
  unfold controlIteration. rewrite readTrackControlFromPipe_eq.
  destruct (ctl_open env) as [e|]; [reflexivity|].
  rewrite bind_Ret. cbn [outcome snd].
  destruct (File_Read 128 (ctl_input env)) as [bytes [e|]]; [reflexivity|].
  cbv beta iota. rewrite refreshIfExpired_eq, bind_Ret. cbv beta iota.
  pose proof (dispatch_outcome (ctl_api env)
                (refreshedClient (ctl_now env) st)
                (Strings.TrimSpace F1 F2 bytes)) as Hd.
  destruct (dispatch _ _ _) as [tr o]. cbn in Hd. subst o.
  cbn. now rewrite app_nil_r.
Qed.

Lemma controlLoop_continues pipe env rest st tr st' :
  controlIteration F1 F2 pipe env st = (tr, Ret st') ->
  continuesWith (controlLoop F1 F2 pipe (env :: rest) st) tr
                (controlLoop F1 F2 pipe rest st').
Proof.
  intros H. unfold continuesWith. cbn [controlLoop]. rewrite H.
  now rewrite bind_Ret.
Qed.

Lemma controlLoop_exits pipe env rest st tr c :
  controlIteration F1 F2 pipe env st = (tr, Exit c) ->
  controlLoop F1 F2 pipe (env :: rest) st = (tr, Exit c).
Proof. intros H. cbn [controlLoop]. now rewrite H. Qed.

(** Every iteration of the control loop starts by opening the pipe for
    reading. *)
Lemma controlIteration_opens_first pipe env st :
  exists tr, trace (controlIteration F1 F2 pipe env st)
             = EvOpenFile pipe O_RDONLY :: tr.
Proof.
  rewrite controlIteration_eq, readTrackControlFromPipe_eq.
  destruct (ctl_open env) as [e|]; [eexists; reflexivity|].
  cbn [outcome trace snd fst].
  destruct (File_Read 128 (ctl_input env)) as [bytes [e|]];
    eexists; reflexivity.
Qed.

Lemma controlLoop_opens_first pipe env rest st :
  exists tr, trace (controlLoop F1 F2 pipe (env :: rest) st)
             = EvOpenFile pipe O_RDONLY :: tr.
Proof.
  cbn [controlLoop].
  destruct (controlIteration_opens_first pipe env st) as [tr Htr].
  destruct (controlIteration F1 F2 pipe env st) as [t [st'|c]];
    cbn [trace fst] in Htr; subst t.
  - rewrite bind_Ret. eexists. reflexivity.
  - eexists. reflexivity.
Qed.

(** A loop that goes on with at least one more iteration opens the pipe
    again right after the calls made so far. *)
Lemma continues_with_open (whole : M State) tr pipe env rest st :
  continuesWith whole tr (controlLoop F1 F2 pipe (env :: rest) st) ->
  exists tr', trace whole = tr ++ EvOpenFile pipe O_RDONLY :: tr'.
Proof.
  intros ->. destruct (controlLoop_opens_first pipe env rest st) as [tr' Htr'].
  exists tr'. cbn [trace fst]. now rewrite Htr'.
Qed.

(** On the main thread the loop runs on the pipe [/tmp/fifoplayer-control]. *)
Lemma controlThread_runs_loop envs st :
  continuesWith (controlThread F1 F2 None envs st)
    [EvRemove "/tmp/fifoplayer-control";
     EvLog ("creating named pipe" +++ nl);
     EvMkfifo "/tmp/fifoplayer-control";
     EvLog ("created pipe /tmp/fifoplayer-control" +++ nl)]
    (controlLoop F1 F2 "/tmp/fifoplayer-control" envs st).
Proof.
  unfold continuesWith, controlThread.
  rewrite createTempNamedPipe_ok, bind_Ret. reflexivity.
Qed.

End ControlFacts.

(** ** float64: conversion of integers and division *)

Module Float64Facts.
Import Float64.
Local Open Scope Z_scope.

Lemma digits2_size p : digits2_pos p = Pos.size p.
Proof. induction p; simpl; congruence. Qed.

Lemma Zdigits2_log2 p : Zpos (digits2_pos p) = Z.succ (Z.log2 (Zpos p)).
Proof.
  rewrite digits2_size. destruct p; simpl; try reflexivity; now rewrite Pos2Z.inj_succ.
Qed.

Lemma Zdigits2_unique m k : 0 < k -> 2 ^ (k - 1) <= m < 2 ^ k -> Zdigits2 m = k.
Proof.
  intros Hk H. assert (0 < m) by (pose proof (Z.pow_pos_nonneg 2 (k-1)); lia).
  destruct m as [|p|p]; try lia. simpl. rewrite Zdigits2_log2.
  rewrite (Z.log2_unique (Zpos p) (k - 1)); try lia.
  replace (Z.succ (k-1)) with k by lia. exact H.
Qed.

Lemma iter_pos_iter {A} (f : A -> A) p x : iter_pos f p x = Pos.iter f x p.
Proof.
  revert x; induction p; intros x; simpl.
  - rewrite !IHp. now rewrite <- !Pos.iter_swap.
  - now rewrite !IHp.
  - reflexivity.
Qed.

Lemma shr_1_spec m r s : 0 <= m ->
  shr_1 {| shr_m := m; shr_r := r; shr_s := s |} =
  {| shr_m := m / 2; shr_r := Z.odd m; shr_s := r || s |}.
Proof.
  intros Hm. destruct m as [|[p|p|]|]; try lia; try reflexivity.
  - cbn [shr_1]. f_equal. rewrite Pos2Z.inj_xI. symmetry.
    symmetry. apply Z.div_unique with 1; lia.
  - cbn [shr_1]. f_equal. rewrite Pos2Z.inj_xO. symmetry.
    symmetry. apply Z.div_unique with 0; lia.
Qed.

Lemma mod_pow2_succ m n : 0 <= n -> 0 <= m ->
  negb (m mod 2 ^ (n + 1) =? 0) = Z.testbit m n || negb (m mod 2 ^ n =? 0).
Proof.
  intros Hn Hm.
  assert (Hp : 0 < 2 ^ n) by (apply Z.pow_pos_nonneg; lia).
  rewrite Z.pow_add_r, Z.pow_1_r by lia.
  rewrite Z.rem_mul_r by lia.
  pose proof (Z.mod_pos_bound m (2^n) Hp) as Hb.
  destruct (Z.testbit m n) eqn:E.
  - apply Z.testbit_true in E; [|lia]. rewrite E. cbn [orb].
    apply negb_true_iff, Z.eqb_neq. lia.
  - apply Z.testbit_false in E; [|lia]. rewrite E. cbn [orb].
    now rewrite Z.mul_0_r, Z.add_0_r.
Qed.

Lemma shr_iter_spec n m r s : 0 <= m ->
  Pos.iter shr_1 {| shr_m := m; shr_r := r; shr_s := s |} n =
  {| shr_m := m / 2 ^ Zpos n;
     shr_r := Z.testbit m (Zpos n - 1);
     shr_s := negb (m mod 2 ^ (Zpos n - 1) =? 0) || (r || s) |}.
Proof.
  intros Hm. induction n using Pos.peano_ind.
  - change (Pos.iter shr_1 ?x 1) with (shr_1 x).
    rewrite shr_1_spec by lia.
    change (2 ^ (1 - 1)) with 1. rewrite Z.mod_1_r. change (1 - 1) with 0.
    rewrite Z.bit0_odd. now rewrite Z.pow_1_r.
  - rewrite Pos.iter_succ, IHn. rewrite shr_1_spec.
    + f_equal.
      * rewrite Pos2Z.inj_succ. rewrite Z.pow_succ_r by lia.
        rewrite Z.div_div by (try apply Z.pow_pos_nonneg; lia). f_equal. lia.
      * rewrite Pos2Z.inj_succ. replace (Z.succ (Zpos n) - 1) with (Zpos n) by lia.
        rewrite <- Z.bit0_odd. rewrite Z.div_pow2_bits by lia. f_equal.
      * rewrite Pos2Z.inj_succ. replace (Z.succ (Zpos n) - 1) with ((Zpos n - 1) + 1) by lia.
        rewrite mod_pow2_succ by lia. 
        destruct (Z.testbit m (Zpos n - 1)); cbn; [reflexivity|].
        reflexivity.
    + apply Z.div_pos; [lia| apply Z.pow_pos_nonneg; lia].
Qed.

Lemma fexp_normal e : -1021 <= e -> fexp prec emax e = e - 53.
Proof. unfold fexp, emin, prec, emax. lia. Qed.

Lemma loc_of_record_of_loc m l :
  loc_of_shr_record (shr_record_of_loc m l) = l.
Proof. now destruct l as [|[]]. Qed.

Lemma shr_m_record_of_loc m l : shr_m (shr_record_of_loc m l) = m.
Proof. now destruct l as [|[]]. Qed.

Lemma round_nearest_even_bounds m l :
  m <= round_nearest_even m l <= m + 1.
Proof.
  destruct l as [|[]]; cbn; try lia. destruct (Z.even m); lia.
Qed.

(** The renormalising second pass of [binary_round_aux]. *)
Lemma shr_fexp_normalize m1 e :
  2 ^ 52 <= m1 <= 2 ^ 53 -> -1074 <= e ->
  shr_fexp prec emax m1 e loc_Exact =
  if m1 <? 2 ^ 53
  then ({| shr_m := m1; shr_r := false; shr_s := false |}, e)
  else ({| shr_m := 2 ^ 52; shr_r := false; shr_s := false |}, e + 1).
Proof.
  intros Hm He. unfold shr_fexp.
  destruct (Z.ltb_spec m1 (2 ^ 53)) as [Hlt|Hge].
  - rewrite (Zdigits2_unique m1 53) by lia.
    rewrite fexp_normal by lia.
    replace (53 + e - 53 - e) with 0 by lia. reflexivity.
  - assert (m1 = 2 ^ 53) as -> by lia.
    rewrite (Zdigits2_unique (2 ^ 53) 54) by lia.
    rewrite fexp_normal by lia.
    replace (54 + e - 53 - e) with 1 by lia. reflexivity.
Qed.

Lemma binary_round_aux_finish sx mx ex lx mrs e' :
  shr_fexp prec emax mx ex lx = (mrs, e') ->
  2 ^ 52 <= round_nearest_even (shr_m mrs) (loc_of_shr_record mrs) <= 2 ^ 53 ->
  -1074 <= e' <= 970 ->
  let m1 := round_nearest_even (shr_m mrs) (loc_of_shr_record mrs) in
  binary_round_aux prec emax sx mx ex lx =
  if m1 <? 2 ^ 53
  then S754_finite sx (Z.to_pos m1) e'
  else S754_finite sx (Z.to_pos (2 ^ 52)) (e' + 1).
Proof.
  intros Hs Hm He m1. unfold binary_round_aux. rewrite Hs.
  fold m1. rewrite shr_fexp_normalize by (fold m1 in Hm; lia).
  fold m1 in Hm.
  destruct (Z.ltb_spec m1 (2 ^ 53)) as [Hlt|Hge]; cbn [shr_m].
  - destruct m1 as [|p|p] eqn:E; try lia.
    replace (e' <=? emax - prec) with true; [reflexivity|].
    symmetry; apply Z.leb_le. unfold emax, prec; lia.
  - replace (e' + 1 <=? emax - prec) with true; [reflexivity|].
    symmetry; apply Z.leb_le. unfold emax, prec; lia.
Qed.

(** The first pass shifts by the number of digits above 53. *)
Lemma shr_fexp_first mx ex lx k :
  0 < k -> 2 ^ (k - 1) <= mx < 2 ^ k -> -1021 <= k + ex ->
  shr_fexp prec emax mx ex lx = shr (shr_record_of_loc mx lx) ex (k - 53).
Proof.
  intros Hk Hm He. unfold shr_fexp.
  rewrite (Zdigits2_unique mx k) by assumption.
  rewrite fexp_normal by lia. f_equal. lia.
Qed.

Lemma bits_spec n : 0 < n -> 0 < bits n /\ 2 ^ (bits n - 1) <= n < 2 ^ bits n.
Proof.
  intros Hn. unfold bits. pose proof (Z.log2_nonneg n).
  replace (Z.log2 n + 1 - 1) with (Z.log2 n) by lia.
  pose proof (Z.log2_spec n Hn). split; [lia|]. 
  replace (Z.log2 n + 1) with (Z.succ (Z.log2 n)) by lia. assumption.
Qed.

Lemma Zdigits2_bits n : 0 < n -> Zdigits2 n = bits n.
Proof.
  intros Hn. destruct (bits_spec n Hn). now apply Zdigits2_unique.
Qed.

Lemma iter_xO p d : Zpos (Pos.iter xO p d) = Zpos p * 2 ^ Zpos d.
Proof.
  induction d using Pos.peano_ind.
  - cbn. lia.
  - rewrite Pos.iter_succ, Pos2Z.inj_xO, IHd, Pos2Z.inj_succ.
    rewrite Z.pow_succ_r by lia. lia.
Qed.

Lemma round_shr m sh : 0 <= m ->
  let mrs := iter_pos shr_1 sh {| shr_m := m; shr_r := false; shr_s := false |} in
  round_nearest_even (shr_m mrs) (loc_of_shr_record mrs) = rne m (Zpos sh).
Proof.
  intros Hm mrs. unfold mrs. rewrite iter_pos_iter, shr_iter_spec by assumption.
  cbn [shr_m loc_of_shr_record orb]. rewrite orb_false_r. unfold rne.
  assert (Hp : 0 < 2 ^ (Zpos sh - 1)) by (apply Z.pow_pos_nonneg; lia).
  assert (H2 : 2 ^ Zpos sh = 2 ^ (Zpos sh - 1) * 2).
  { rewrite <- (Z.pow_1_r 2) at 3. rewrite <- Z.pow_add_r by lia. f_equal. lia. }
  assert (Hrem : m mod 2 ^ Zpos sh =
                 m mod 2 ^ (Zpos sh - 1)
                 + 2 ^ (Zpos sh - 1) * ((m / 2 ^ (Zpos sh - 1)) mod 2)).
  { rewrite H2. apply Z.rem_mul_r; lia. }
  pose proof (Z.mod_pos_bound m (2 ^ (Zpos sh - 1)) Hp) as Hlo.
  destruct (Z.testbit m (Zpos sh - 1)) eqn:Eb.
  - apply Z.testbit_true in Eb; [|lia]. rewrite Eb in Hrem.
    destruct (Z.eqb_spec (m mod 2 ^ (Zpos sh - 1)) 0) as [E0|E0]; cbn [negb].
    + replace (2 * (m mod 2 ^ Zpos sh) ?= 2 ^ Zpos sh) with Eq; [reflexivity|].
      symmetry. apply Z.compare_eq_iff. lia.
    + replace (2 * (m mod 2 ^ Zpos sh) ?= 2 ^ Zpos sh) with Gt; [reflexivity|].
      symmetry. apply Z.compare_gt_iff. lia.
  - apply Z.testbit_false in Eb; [|lia]. rewrite Eb in Hrem.
    replace (2 * (m mod 2 ^ Zpos sh) ?= 2 ^ Zpos sh) with Lt.
    + now destruct (negb (m mod 2 ^ (Zpos sh - 1) =? 0)).
    + symmetry. apply Z.compare_lt_iff. lia.
Qed.

Lemma rne_bounds n sh : 0 <= sh -> n / 2 ^ sh <= rne n sh <= n / 2 ^ sh + 1.
Proof.
  intros Hs. unfold rne.
  destruct (2 * (n mod 2 ^ sh) ?= 2 ^ sh); try lia.
  destruct (Z.even (n / 2 ^ sh)); lia.
Qed.

Lemma rne_mono n1 n2 sh : 0 <= sh -> n1 <= n2 -> rne n1 sh <= rne n2 sh.
Proof.
  intros Hs Hle.
  assert (Hp : 0 < 2 ^ sh) by (apply Z.pow_pos_nonneg; lia).
  pose proof (Z.div_le_mono n1 n2 (2 ^ sh) Hp Hle) as Hq.
  destruct (Z.eq_dec (n1 / 2 ^ sh) (n2 / 2 ^ sh)) as [Heq|Hne].
  - assert (Hr : n1 mod 2 ^ sh <= n2 mod 2 ^ sh).
    { pose proof (Z.div_mod n1 (2 ^ sh)). pose proof (Z.div_mod n2 (2 ^ sh)). nia. }
    unfold rne. rewrite Heq.
    destruct (Z.compare_spec (2 * (n1 mod 2 ^ sh)) (2 ^ sh));
      destruct (Z.compare_spec (2 * (n2 mod 2 ^ sh)) (2 ^ sh));
      destruct (Z.even (n2 / 2 ^ sh)); lia.
  - pose proof (rne_bounds n1 sh Hs). pose proof (rne_bounds n2 sh Hs). lia.
Qed.

Lemma div_pow2_bounds n k j : 0 <= j <= k ->
  2 ^ k <= n < 2 ^ (k + 1) -> 2 ^ (k - j) <= n / 2 ^ j < 2 ^ (k - j + 1).
Proof.
  intros Hj Hn.
  assert (Hp : 0 < 2 ^ j) by (apply Z.pow_pos_nonneg; lia).
  assert (E1 : 2 ^ k = 2 ^ (k - j) * 2 ^ j).
  { rewrite <- Z.pow_add_r by lia. f_equal; lia. }
  assert (E2 : 2 ^ (k + 1) = 2 ^ (k - j + 1) * 2 ^ j).
  { rewrite <- Z.pow_add_r by lia. f_equal; lia. }
  split.
  - apply Z.div_le_lower_bound; lia.
  - apply Z.div_lt_upper_bound; lia.
Qed.

Lemma normal_bounds n : 0 < n -> 2 ^ 52 <= fst (normal n) < 2 ^ 53.
Proof.
  intros Hn. destruct (bits_spec n Hn) as [Hk Hb]. unfold normal.
  destruct (Z.leb_spec (bits n) 53) as [Hle|Hgt]; cbn [fst].
  - assert (Hp : 0 < 2 ^ (53 - bits n)) by (apply Z.pow_pos_nonneg; lia).
    assert (E1 : 2 ^ 52 = 2 ^ (bits n - 1) * 2 ^ (53 - bits n)).
    { rewrite <- Z.pow_add_r by lia. f_equal; lia. }
    assert (E2 : 2 ^ 53 = 2 ^ bits n * 2 ^ (53 - bits n)).
    { rewrite <- Z.pow_add_r by lia. f_equal; lia. }
    nia.
  - pose proof (rne_bounds n (bits n - 53) ltac:(lia)) as Hr.
    pose proof (div_pow2_bounds n (bits n - 1) (bits n - 53) ltac:(lia)) as Hd.
    replace (bits n - 1 + 1) with (bits n) in Hd by lia.
    replace (bits n - 1 - (bits n - 53)) with 52 in Hd by lia.
    specialize (Hd Hb). change (52 + 1) with 53 in Hd.
    destruct (Z.ltb_spec (rne n (bits n - 53)) (2 ^ 53)); cbn [fst]; lia.
Qed.

Lemma of_int_spec n : 0 < n < 2 ^ 1000 ->
  of_int n = S754_finite false (Z.to_pos (fst (normal n))) (snd (normal n)).
Proof.
  intros [Hn Hmax]. destruct (bits_spec n Hn) as [Hk Hb].
  assert (Hk2 : bits n <= 1000).
  { destruct (Z.le_gt_cases (bits n) 1000) as [|Hgt]; [assumption|].
    assert (2 ^ 1000 <= 2 ^ (bits n - 1)) by (apply Z.pow_le_mono_r; lia). lia. }
  destruct n as [|p|p]; try lia.
  unfold of_int, binary_normalize, binary_round.
  change (Zpos (digits2_pos p)) with (Zdigits2 (Zpos p)).
  rewrite Zdigits2_bits by lia. rewrite Z.add_0_r, fexp_normal by lia.
  unfold normal, shl_align.
  destruct (Z.leb_spec (bits (Zpos p)) 53) as [Hle|Hgt]; cbn [fst snd].
  - (* the integer fits the mantissa: exact *)
    set (k := bits (Zpos p)) in *.
    assert (Hmz : 2 ^ 52 <= Zpos p * 2 ^ (53 - k) < 2 ^ 53).
    { pose proof (normal_bounds (Zpos p) Hn) as Hnb. unfold normal in Hnb.
      fold k in Hnb. destruct (Z.leb_spec k 53); [exact Hnb | lia]. }
    destruct (k - 53 - 0) as [|d|d] eqn:Ed; try lia.
    + assert (k = 53) by lia.
      replace (53 - k) with 0 in * by lia. rewrite Z.mul_1_r in *.
      erewrite binary_round_aux_finish with (e' := 0)
        (mrs := {| shr_m := Zpos p; shr_r := false; shr_s := false |}).
      * cbn [shr_m loc_of_shr_record round_nearest_even].
        destruct (Z.ltb_spec (Zpos p) (2 ^ 53)); [|lia].
        f_equal. lia.
      * rewrite (shr_fexp_first _ _ _ 53) by lia. reflexivity.
      * cbn [shr_m loc_of_shr_record round_nearest_even]. lia.
      * lia.
    + assert (Hd : 53 - k = Zpos d) by lia. rewrite Hd in *.
      erewrite binary_round_aux_finish with (e' := k - 53)
        (mrs := {| shr_m := Zpos (Pos.iter xO p d); shr_r := false; shr_s := false |}).
      * cbn [shr_m loc_of_shr_record round_nearest_even]. rewrite iter_xO.
        destruct (Z.ltb_spec (Zpos p * 2 ^ Zpos d) (2 ^ 53)); [|lia].
        reflexivity.
      * rewrite (shr_fexp_first _ _ _ 53); rewrite ?iter_xO; try lia.
        replace (53 - 53) with 0 by lia. reflexivity.
      * cbn [shr_m loc_of_shr_record round_nearest_even]. rewrite iter_xO. lia.
      * lia.
  - (* more than 53 digits: shift right and round *)
    set (k := bits (Zpos p)) in *.
    destruct (k - 53 - 0) as [|d|d] eqn:Ed; try lia.
    assert (Hd : k - 53 = Zpos d) by lia.
    pose proof (normal_bounds (Zpos p) Hn) as Hnb. unfold normal in Hnb.
    fold k in Hnb. destruct (Z.leb_spec k 53) as [|_]; [lia|].
    pose proof (rne_bounds (Zpos p) (k - 53) ltac:(lia)) as Hr.
    pose proof (div_pow2_bounds (Zpos p) (k - 1) (k - 53) ltac:(lia)) as Hdv.
    replace (k - 1 + 1) with k in Hdv by lia.
    replace (k - 1 - (k - 53)) with 52 in Hdv by lia.
    specialize (Hdv Hb). change (52 + 1) with 53 in Hdv.
    erewrite binary_round_aux_finish with (e' := k - 53)
      (mrs := iter_pos shr_1 d {| shr_m := Zpos p; shr_r := false; shr_s := false |}).
    + rewrite round_shr by lia. rewrite <- Hd.
      destruct (Z.ltb_spec (rne (Zpos p) (k - 53)) (2 ^ 53)); cbn [fst snd];
        f_equal; lia.
    + rewrite (shr_fexp_first _ _ _ k) by lia. rewrite Hd. cbn [shr shr_record_of_loc].
      f_equal. 
    + rewrite round_shr by lia. rewrite <- Hd. lia.
    + lia.
Qed.

Lemma bits_mono p d : 0 < p <= d -> bits p <= bits d.
Proof. intros H. unfold bits. pose proof (Z.log2_le_mono p d). lia. Qed.

Lemma normal_exponent n : 0 < n ->
  snd (normal n) = bits n - 53 \/
  (snd (normal n) = bits n - 52 /\ fst (normal n) = 2 ^ 52).
Proof.
  intros Hn. unfold normal.
  destruct (bits n <=? 53); [now left|].
  destruct (rne n (bits n - 53) <? 2 ^ 53); [now left | now right].
Qed.

Lemma normal_mono p d : 0 < p <= d -> normal_le (normal p) (normal d).
Proof.
  intros [Hp Hle]. assert (Hd : 0 < d) by lia.
  pose proof (bits_mono p d (conj Hp Hle)) as Hk.
  pose proof (normal_bounds p Hp) as Hbp. pose proof (normal_bounds d Hd) as Hbd.
  destruct (Z.eq_dec (bits p) (bits d)) as [Heq|Hne].
  - unfold normal_le, normal in *. rewrite Heq in *.
    destruct (bits_spec d Hd) as [Hkd _].
    destruct (Z.leb_spec (bits d) 53) as [Hs|Hl]; cbn [fst snd] in *.
    + right. split; [reflexivity|].
      apply Z.mul_le_mono_nonneg_r; [apply Z.pow_nonneg|]; lia.
    + pose proof (rne_mono p d (bits d - 53) ltac:(lia) Hle) as Hr.
      destruct (Z.ltb_spec (rne p (bits d - 53)) (2 ^ 53));
        destruct (Z.ltb_spec (rne d (bits d - 53)) (2 ^ 53)); cbn [fst snd] in *; lia.
  - unfold normal_le.
    destruct (normal_exponent p Hp) as [Ep|[Ep Mp]];
      destruct (normal_exponent d Hd) as [Ed|[Ed Md]]; lia.
Qed.

Lemma one_eq : one = S754_finite false (Z.to_pos (2 ^ 52)) (-52).
Proof. reflexivity. Qed.

Lemma leb_one m E :
  E < -52 \/ (E = -52 /\ Zpos m <= 2 ^ 52) ->
  SFleb (S754_finite false m E) one = true.
Proof.
  intros H. rewrite one_eq. unfold SFleb, SFcompare.
  destruct (Z.compare_spec E (-52)) as [He|He|He]; try reflexivity; try lia.
  destruct H as [H|[_ H]]; [lia|].
  change (Pos.compare_cont Eq m (Z.to_pos (2 ^ 52)))
    with (Pos.compare m (Z.to_pos (2 ^ 52))).
  destruct (Pos.compare_spec m (Z.to_pos (2 ^ 52))) as [Hc|Hc|Hc];
    try reflexivity.
  apply Pos2Z.pos_lt_pos in Hc. rewrite Z2Pos.id in Hc by lia. lia.
Qed.

(** Rounding a quotient of 53 or 54 digits. *)
Lemma binary_round_aux_quotient sx q e l :
  2 ^ 52 <= q < 2 ^ 54 -> -1000 <= e <= 900 ->
  exists m E,
    binary_round_aux prec emax sx q e l = S754_finite sx m E
    /\ 2 ^ 52 <= Zpos m < 2 ^ 53
    /\ (q < 2 ^ 53 -> E = e \/ (E = e + 1 /\ Zpos m = 2 ^ 52))
    /\ (2 ^ 53 < q -> E = e + 1 \/ (E = e + 2 /\ Zpos m = 2 ^ 52))
    /\ (q = 2 ^ 53 -> E = e + 1 /\ Zpos m = 2 ^ 52).
Proof.
  intros Hq He.
  destruct (Z.lt_ge_cases q (2 ^ 53)) as [Hlt|Hge].
  - pose proof (round_nearest_even_bounds q l) as Hr.
    rewrite (binary_round_aux_finish sx q e l (shr_record_of_loc q l) e).
    + rewrite shr_m_record_of_loc, loc_of_record_of_loc.
      destruct (Z.ltb_spec (round_nearest_even q l) (2 ^ 53)).
      * exists (Z.to_pos (round_nearest_even q l)), e.
        rewrite Z2Pos.id by lia. repeat split; try lia.
      * exists (Z.to_pos (2 ^ 52)), (e + 1).
        rewrite Z2Pos.id by lia. repeat split; try lia.
    + rewrite (shr_fexp_first _ _ _ 53) by lia. reflexivity.
    + rewrite shr_m_record_of_loc, loc_of_record_of_loc. lia.
    + lia.
  - set (mrs := shr_1 (shr_record_of_loc q l)).
    assert (Hm : shr_m mrs = q / 2).
    { unfold mrs. destruct l as [|[]]; cbn [shr_record_of_loc];
        rewrite shr_1_spec by lia; reflexivity. }
    assert (Hq2 : 2 ^ 52 <= q / 2 < 2 ^ 53).
    { split; [apply Z.div_le_lower_bound | apply Z.div_lt_upper_bound]; lia. }
    pose proof (round_nearest_even_bounds (shr_m mrs) (loc_of_shr_record mrs)) as Hr.
    rewrite (binary_round_aux_finish sx q e l mrs (e + 1)).
    + destruct (Z.ltb_spec (round_nearest_even (shr_m mrs) (loc_of_shr_record mrs))
                  (2 ^ 53)).
      * exists (Z.to_pos (round_nearest_even (shr_m mrs) (loc_of_shr_record mrs))),
          (e + 1).
        rewrite Z2Pos.id by lia. repeat split; try lia.
        subst q. unfold mrs.
        destruct l as [|[]]; reflexivity.
      * exists (Z.to_pos (2 ^ 52)), (e + 1 + 1).
        rewrite Z2Pos.id by lia. repeat split; try lia.
        all: subst q; exfalso; unfold mrs in *; destruct l as [|[]];
          cbn in *; lia.
    + rewrite (shr_fexp_first _ _ _ 54) by lia. reflexivity.
    + lia.
    + lia.
Qed.

Lemma SFdiv_normal mx ex my ey :
  2 ^ 52 <= Zpos mx < 2 ^ 53 -> 2 ^ 52 <= Zpos my < 2 ^ 53 ->
  -400 <= ex <= 400 -> -400 <= ey <= 400 ->
  SFdiv prec emax (S754_finite false mx ex) (S754_finite false my ey) =
  binary_round_aux prec emax false
    (Zpos mx * 2 ^ 53 / Zpos my) (ex - ey - 53)
    (new_location (Zpos my) (Zpos mx * 2 ^ 53 mod Zpos my)).
Proof.
  intros Hx Hy Hex Hey. unfold SFdiv, SFdiv_core_binary.
  rewrite (Zdigits2_unique (Zpos mx) 53), (Zdigits2_unique (Zpos my) 53) by lia.
  rewrite fexp_normal by lia.
  replace (Z.min (53 + ex - (53 + ey) - 53) (ex - ey)) with (ex - ey - 53) by lia.
  replace (ex - ey - (ex - ey - 53)) with 53 by lia.
  rewrite Z.shiftl_mul_pow2 by lia.
  unfold Z.div, Z.modulo.
  destruct (Z.div_eucl (Zpos mx * 2 ^ 53) (Zpos my)) as [q r]. reflexivity.
Qed.

Lemma SFdiv_le_one mx ex my ey :
  2 ^ 52 <= Zpos mx < 2 ^ 53 -> 2 ^ 52 <= Zpos my < 2 ^ 53 ->
  -400 <= ex <= 400 -> -400 <= ey <= 400 ->
  normal_le (Zpos mx, ex) (Zpos my, ey) ->
  let q := SFdiv prec emax (S754_finite false mx ex) (S754_finite false my ey) in
  SFleb zero q = true /\ SFleb q one = true.
Proof.
  intros Hx Hy Hex Hey Hle q. unfold q. rewrite SFdiv_normal by assumption.
  set (a := Zpos mx * 2 ^ 53).
  assert (Hlo : 2 ^ 52 <= a / Zpos my).
  { apply Z.div_le_lower_bound; unfold a; nia. }
  assert (Hhi : a / Zpos my < 2 ^ 54).
  { apply Z.div_lt_upper_bound; unfold a; nia. }
  destruct (binary_round_aux_quotient false (a / Zpos my) (ex - ey - 53)
              (new_location (Zpos my) (a mod Zpos my)))
    as (m & E & -> & Hm & H53 & H54 & Heq); [lia | lia |].
  split; [reflexivity|].
  apply leb_one.
  destruct Hle as [Hlt|[He Hmle]]; cbn [fst snd] in *.
  - destruct (Z.lt_trichotomy (a / Zpos my) (2 ^ 53)) as [Hc|[Hc|Hc]].
    + destruct (H53 Hc) as [->|[-> ?]]; lia.
    + destruct (Heq Hc) as [-> ?]; lia.
    + destruct (H54 Hc) as [->|[-> ?]]; lia.
  - assert (Hq : a / Zpos my <= 2 ^ 53).
    { apply Z.div_le_upper_bound; unfold a; nia. }
    destruct (Z.lt_trichotomy (a / Zpos my) (2 ^ 53)) as [Hc|[Hc|Hc]]; [| |lia].
    + destruct (H53 Hc) as [->|[-> ?]]; lia.
    + destruct (Heq Hc) as [-> ?]; lia.
Qed.

Lemma SFdiv_self mx ex :
  2 ^ 52 <= Zpos mx < 2 ^ 53 -> -400 <= ex <= 400 ->
  SFdiv prec emax (S754_finite false mx ex) (S754_finite false mx ex) = one.
Proof.
  intros Hx Hex. rewrite SFdiv_normal by assumption.
  rewrite Z.mul_comm, Z.div_mul by lia.
  destruct (binary_round_aux_quotient false (2 ^ 53) (ex - ex - 53)
              (new_location (Zpos mx) (2 ^ 53 * Zpos mx mod Zpos mx)))
    as (m & E & -> & _ & _ & _ & Heq); [lia | lia |].
  destruct (Heq eq_refl) as [-> Hm]. rewrite one_eq. f_equal; [|lia].
  apply Pos2Z.inj. rewrite Hm. reflexivity.
Qed.

Lemma normal_exponent_int n : 0 < n <= MaxInt -> -52 <= snd (normal n) <= 11.
Proof.
  intros [Hn Hmax]. destruct (bits_spec n Hn) as [Hk Hb].
  assert (bits n <= 63).
  { destruct (Z.le_gt_cases (bits n) 63) as [|Hgt]; [assumption|].
    assert (2 ^ 63 <= 2 ^ (bits n - 1)) by (apply Z.pow_le_mono_r; lia).
    unfold MaxInt in Hmax. lia. }
  destruct (normal_exponent n Hn) as [->|[-> _]]; lia.
Qed.

Lemma div_of_int_unit p d :
  0 <= p <= d -> 0 < d <= MaxInt ->
  let q := SFdiv prec emax (of_int p) (of_int d) in
  SFleb zero q = true /\ SFleb q one = true
  /\ (p = 0 -> q = zero) /\ (p = d -> q = one).
Proof.
  intros Hp Hd q. unfold q.
  assert (Hd1000 : 0 < d < 2 ^ 1000) by (unfold MaxInt in Hd; lia).
  pose proof (normal_bounds d (proj1 Hd)) as Hbd.
  pose proof (normal_exponent_int d Hd) as Hed.
  rewrite (of_int_spec d Hd1000).
  destruct (Z.eq_dec p 0) as [->|Hp0].
  - cbn. repeat split; try reflexivity. intros <-. lia.
  - assert (Hp' : 0 < p <= MaxInt) by lia.
    assert (Hp1000 : 0 < p < 2 ^ 1000) by (unfold MaxInt in Hd; lia).
    pose proof (normal_bounds p (proj1 Hp')) as Hbp.
    pose proof (normal_exponent_int p Hp') as Hep.
    pose proof (normal_mono p d ltac:(lia)) as Hle.
    rewrite (of_int_spec p Hp1000).
    destruct (SFdiv_le_one (Z.to_pos (fst (normal p))) (snd (normal p))
                (Z.to_pos (fst (normal d))) (snd (normal d))) as [H0 H1];
      rewrite ?Z2Pos.id; try lia.
    { unfold normal_le in *. cbn [fst snd]. lia. }
    repeat split; try assumption; try lia.
    intros ->. apply SFdiv_self; rewrite ?Z2Pos.id; lia.
Qed.

End Float64Facts.

(** ** The published line *)

Lemma filter_isWrite_publisher pipe env st :
  snd (pub_response env) = None ->
  pub_open env = None ->
  filter isWrite (trace (publisherIteration pipe env st)) =
  [EvWriteString pipe (output (playingDetails (fst (pub_response env))))].
Proof.
  intros Hr Ho. rewrite publisherIteration_eq, Hr, Ho. cbv zeta.
  destruct (pub_write env); cbn [trace fst];
    rewrite !filter_app, filter_refreshEvents by reflexivity; reflexivity.
Qed.

(** C2: for a playing track, what [writeTrackDetailsToPipe] writes to the
    track pipe is the track name, then [" - "], then the artist names
    joined with [", "]; for the track "Song A" by "X" and "Y" the line is
    "Song A - X, Y". *)
Theorem C2_track_line pipe env st cur item :
  pub_response env = (Some cur, None) ->
  playing_Item cur = Some item ->
  pub_open env = None ->
  filter isWrite (trace (publisherIteration pipe env st)) =
    [EvWriteString pipe
       (track_Name item +++ " - " +++ Join (map artist_Name (track_Artists item)) ", ")]
  /\ (track_Name item = "Song A" ->
      map artist_Name (track_Artists item) = ["X"; "Y"] ->
      filter isWrite (trace (publisherIteration pipe env st)) =
        [EvWriteString pipe "Song A - X, Y"]).
Proof.
  intros Hr Hi Ho.
  assert (H : filter isWrite (trace (publisherIteration pipe env st)) =
    [EvWriteString pipe
       (track_Name item +++ " - " +++ Join (map artist_Name (track_Artists item)) ", ")]).
  { rewrite filter_isWrite_publisher by (rewrite ?Hr; auto).
    rewrite Hr. cbn [fst playingDetails]. rewrite Hi.
    cbn [output trackDetails Name Artists]. now rewrite artistNames_Join. }
  split; [exact H|].
  intros Hn Ha. rewrite H, Hn, Ha. reflexivity.
Qed.

Lemma C2_track_line_witness :
  filter isWrite
    (trace (publisherIteration Examples.trackPipe Examples.atExpiry Examples.state))
  = [EvWriteString Examples.trackPipe "Song A - X, Y"].
Proof.
  exact (proj2 (C2_track_line Examples.trackPipe Examples.atExpiry Examples.state
                  Examples.playingSongA Examples.songA
                  eq_refl eq_refl eq_refl) eq_refl eq_refl).
Defined.

(** C6: when [fetchTrackDetails] returns no details and no error, the line
    written to the track pipe is exactly "No track currently playing"; no
    field of any track enters it. *)
Theorem C6_no_track_line pipe env st :
  outcome (fetchTrackDetails (pub_response env)
             (refreshedClient (pub_now env) st)) = Ret (None, None) ->
  pub_open env = None ->
  filter isWrite (trace (publisherIteration pipe env st)) =
    [EvWriteString pipe "No track currently playing"]
  /\ forall write_err,
       trace (writeTrackDetailsToPipe None write_err pipe None) =
       [EvOpenFile pipe O_WRONLY;
        EvWriteString pipe "No track currently playing";
        EvClose pipe].
Proof.
  intros Hf Ho. split; [|reflexivity].
  rewrite fetchTrackDetails_eq in Hf. cbn [outcome snd] in Hf.
  destruct (snd (pub_response env)) as [e|] eqn:Hr; [discriminate|].
  injection Hf as Hd.
  rewrite filter_isWrite_publisher by assumption. now rewrite Hd.
Qed.

Lemma C6_no_track_line_witness :
  filter isWrite
    (trace (publisherIteration Examples.trackPipe Examples.idle Examples.state))
  = [EvWriteString Examples.trackPipe "No track currently playing"].
Proof.
  exact (proj1 (C6_no_track_line Examples.trackPipe Examples.idle Examples.state
                  eq_refl eq_refl)).
Defined.

(** ** The artist string *)

(** C3, as the claim states it, fails: one artist, yet one separator
    occurrence instead of none. *)
Lemma C3_counterexample :
  List.length Examples.tyler = 1%nat /\
  (Z.of_nat (Strings.occurrences ", " (artistNames Examples.tyler))
   <> Z.of_nat (List.length Examples.tyler) - 1)%Z.
Proof. split; [reflexivity | vm_compute; discriminate]. Qed.

(** C3 (amended): for a non-empty artist list of length N the artist
    string is the names in input order, each byte for byte, with [", "]
    between neighbours; it holds N-1 separator occurrences plus those
    inside the names, so exactly N-1 when no name contains [", "], and
    then splitting it at [", "] gives the names back in order. *)
Theorem C3_artist_string (artists : list SimpleArtist) :
  artists <> [] ->
  artistNames artists = Join (map artist_Name artists) ", "
  /\ Z.of_nat (Strings.occurrences ", " (artistNames artists)) =
     (Z.of_nat (List.length artists) - 1
      + Z.of_nat (total (map (fun a => Strings.occurrences ", " (artist_Name a))
                             artists)))%Z
  /\ ((forall a, In a artists -> Strings.occurrences ", " (artist_Name a) = 0%nat) ->
      Z.of_nat (Strings.occurrences ", " (artistNames artists)) =
      (Z.of_nat (List.length artists) - 1)%Z
      /\ Strings.SplitCommaSpace (artistNames artists) = map artist_Name artists).
Proof.
  intros Hne.
  assert (Hcount :
    Z.of_nat (Strings.occurrences ", " (artistNames artists)) =
     (Z.of_nat (List.length artists) - 1
      + Z.of_nat (total (map (fun a => Strings.occurrences ", " (artist_Name a))
                             artists)))%Z).
  { rewrite artistNames_Join.
    destruct artists as [|a rest]; [contradiction|].
    cbn [map]. rewrite occurrences_Join_cons.
    cbn [map List.length]. rewrite !map_map, length_map. lia. }
  split; [apply artistNames_Join|]. split; [exact Hcount|].
  intros Hnone. split.
  - rewrite Hcount.
    assert (Hz : total (map (fun a => Strings.occurrences ", " (artist_Name a))
                            artists) = 0%nat).
    { clear Hcount Hne. induction artists as [|a rest IH]; [reflexivity|].
      cbn [map total fold_right]. rewrite (Hnone a (or_introl eq_refl)).
      apply IH. intros b Hb. apply Hnone. now right. }
    rewrite Hz. lia.
  - rewrite artistNames_Join.
    destruct artists as [|a rest]; [contradiction|].
    cbn [map]. apply SplitCommaSpace_Join.
    intros y Hy. change (artist_Name a :: map artist_Name rest)
      with (map artist_Name (a :: rest)) in Hy.
    apply in_map_iff in Hy as (b & <- & Hb). now apply Hnone.
Qed.

Lemma C3_artist_string_witness :
  artistNames (track_Artists Examples.songA) = "X, Y"
  /\ Z.of_nat (Strings.occurrences ", " (artistNames (track_Artists Examples.songA)))
     = 1%Z
  /\ Strings.SplitCommaSpace (artistNames (track_Artists Examples.songA))
     = ["X"; "Y"].
Proof.
  destruct (C3_artist_string (track_Artists Examples.songA)) as (Hj & _ & Hn).
  - discriminate.
  - split; [exact Hj|].
    apply Hn. intros a [<-|[<-|[]]]; reflexivity.
Defined.

(** ** Errors in the publisher loop *)

(** C8: in the publisher loop an error returned by [fetchTrackDetails] or
    by [writeTrackDetailsToPipe] is followed only by the diagnostic of
    [log.Fatalf] and the exit of the process: no second attempt, no sleep,
    no further iteration. *)
Theorem C8_publisher_errors_fatal pipe env rest st e :
  let client := refreshedClient (pub_now env) st in
  let pre := refreshEvents (pub_now env) (snd st)
             ++ [EvPlayerCurrentlyPlaying client] in
  (forall details,
     outcome (fetchTrackDetails (pub_response env) client) = Ret (details, Some e) ->
     publisherLoop pipe (env :: rest) st =
     (pre ++ [EvLog ("unable to fetch track details: " +++ e)], Exit 1%Z))
  /\
  (forall details,
     outcome (fetchTrackDetails (pub_response env) client) = Ret (details, None) ->
     outcome (writeTrackDetailsToPipe (pub_open env) (pub_write env) pipe details)
       = Ret (Some e) ->
     publisherLoop pipe (env :: rest) st =
     (pre ++ trace (writeTrackDetailsToPipe (pub_open env) (pub_write env) pipe details)
          ++ [EvLog ("unable to write to named pipe: " +++ e)], Exit 1%Z)
     /\ filter isFetch
          (trace (writeTrackDetailsToPipe (pub_open env) (pub_write env) pipe details))
        = []).
Proof.
  intros client pre. split.
  - intros details Hf. rewrite fetchTrackDetails_eq in Hf. cbn [outcome snd] in Hf.
    rewrite publisherLoop_cons, publisherIteration_eq.
    destruct (snd (pub_response env)) as [e'|]; [|discriminate].
    injection Hf as _ ->. reflexivity.
  - intros details Hf Hw. rewrite fetchTrackDetails_eq in Hf. cbn [outcome snd] in Hf.
    rewrite publisherLoop_cons, publisherIteration_eq.
    destruct (snd (pub_response env)) as [e'|]; [discriminate|].
    injection Hf as <-. unfold writeTrackDetailsToPipe in *.
    destruct (pub_open env) as [e1|]; cbn in Hw.
    + injection Hw as ->. split; reflexivity.
    + destruct (pub_write env) as [e2|]; [|discriminate].
      injection Hw as ->. split; reflexivity.
Qed.

Lemma C8_publisher_errors_fatal_witness :
  publisherLoop Examples.trackPipe [Examples.fetchFails; Examples.idle] Examples.state
  = ([EvPlayerCurrentlyPlaying (fst Examples.state);
      EvLog "unable to fetch track details: timeout"], Exit 1%Z)
  /\
  publisherLoop Examples.trackPipe [Examples.writeFails; Examples.idle] Examples.state
  = ([EvPlayerCurrentlyPlaying (fst Examples.state);
      EvOpenFile Examples.trackPipe O_WRONLY;
      EvWriteString Examples.trackPipe "Song A - X, Y";
      EvClose Examples.trackPipe;
      EvLog "unable to write to named pipe: broken pipe"], Exit 1%Z).
Proof.
  split.
  - exact (proj1 (C8_publisher_errors_fatal Examples.trackPipe Examples.fetchFails
                    [Examples.idle] Examples.state "timeout") None eq_refl).
  - exact (proj1 (proj2 (C8_publisher_errors_fatal Examples.trackPipe
                    Examples.writeFails [Examples.idle] Examples.state "broken pipe")
                    _ eq_refl eq_refl)).
Defined.

(** ** The expiry check *)

Lemma existsb_isRefresh_refreshEvents now token :
  existsb isRefresh (refreshEvents now token) = Before (Expiry token) now.
Proof. unfold refreshEvents. now destruct (Before (Expiry token) now). Qed.

Lemma existsb_isRefresh_dispatch api client action :
  existsb isRefresh (trace (dispatch api client action)) = false.
Proof.
  unfold dispatch.
  destruct (action =? Play)%string; [now destruct api|].
  destruct (action =? Pause)%string; [now destruct api|].
  destruct (action =? Next)%string; [now destruct api|].
  reflexivity.
Qed.

(** C4, as the claim states it, fails: the stored expiry is at (so "at or
    before") the current time, and no refresh is made. *)
Lemma C4_counterexample :
  (Expiry (snd Examples.state) <= pub_now Examples.atExpiry)%Z /\
  existsb isRefresh
    (trace (publisherIteration Examples.trackPipe Examples.atExpiry Examples.state))
  = false.
Proof. split; [discriminate | reflexivity]. Qed.

(** C4 (amended): in an iteration of either loop, [refreshTokenAndClient]
    is called if and only if the check is reached and the stored expiry is
    strictly before the current time.  The publisher loop always reaches
    the check; the control loop reaches it when the read has succeeded. *)
Theorem C4_refresh_iff_expired F1 F2 ppipe penv cpipe cenv (st : State) :
  (existsb isRefresh (trace (publisherIteration ppipe penv st)) = true
   <-> (Expiry (snd st) < pub_now penv)%Z)
  /\
  (existsb isRefresh (trace (controlIteration F1 F2 cpipe cenv st)) = true
   <-> readOk cenv = true /\ (Expiry (snd st) < ctl_now cenv)%Z).
Proof.
  split.
  - rewrite publisherIteration_eq. cbv zeta.
    assert (H : forall tl o,
      (forallb (fun e => negb (isRefresh e)) tl = true) ->
      existsb isRefresh
        (trace ((refreshEvents (pub_now penv) (snd st)
                 ++ [EvPlayerCurrentlyPlaying (refreshedClient (pub_now penv) st)])
                ++ tl, o : Outcome State))
      = Before (Expiry (snd st)) (pub_now penv)).
    { intros tl o Htl. cbn [trace fst].
      rewrite !existsb_app, existsb_isRefresh_refreshEvents. cbn [existsb isRefresh].
      rewrite !orb_false_r.
      assert (Hz : existsb isRefresh tl = false).
      { clear -Htl. induction tl as [|x tl IH]; [reflexivity|].
        cbn in *. apply andb_true_iff in Htl as [Hx Ht].
        rewrite IH by assumption. now destruct (isRefresh x). }
      rewrite Hz. now rewrite orb_false_r. }
    unfold Before in H.
    destruct (snd (pub_response penv)), (pub_open penv), (pub_write penv);
      rewrite H by reflexivity; apply Z.ltb_lt.
  - rewrite controlIteration_eq, readTrackControlFromPipe_eq. unfold readOk.
    destruct (ctl_open cenv) as [e|].
    + cbn. split; [discriminate | intros [? _]; discriminate].
    + cbn [outcome snd trace fst].
      destruct (File_Read 128 (ctl_input cenv)) as [bytes [e|]].
      * cbn. split; [discriminate | intros [? _]; discriminate].
      * cbn [snd trace fst].
        rewrite !existsb_app, existsb_isRefresh_refreshEvents,
          existsb_isRefresh_dispatch. cbn [readEvents existsb isRefresh].
        rewrite !orb_false_r. cbn [orb]. unfold Before. rewrite Z.ltb_lt. tauto.
Qed.

(** ** Reading and trimming a payload *)

Lemma take_all (n : nat) (s : string) :
  (String.length s <= n)%nat -> Strings.take n s = s.
Proof.
  revert s; induction n as [|n IH]; intros [|c s] H; cbn in *;
    try reflexivity; try lia.
  f_equal. apply IH. lia.
Qed.

Lemma take_app (n : nat) (a b : string) :
  (String.length a <= n)%nat ->
  Strings.take n (a +++ b) = a +++ Strings.take (n - String.length a) b.
Proof.
  revert n; induction a as [|c a IH]; intros n H; cbn in *.
  - now rewrite Nat.sub_0_r.
  - destruct n as [|n]; [lia|]. cbn. f_equal. apply IH. lia.
Qed.

Lemma take_app_short (n : nat) (a b : string) :
  (n <= String.length a)%nat -> Strings.take n (a +++ b) = Strings.take n a.
Proof.
  revert n; induction a as [|c a IH]; intros n H; cbn in *.
  - assert (n = 0%nat) as -> by lia. now destruct b.
  - destruct n as [|n]; [reflexivity|]. cbn. f_equal. apply IH. lia.
Qed.

Lemma length_take_short (n : nat) (s : string) :
  (n <= String.length s)%nat -> String.length (Strings.take n s) = n.
Proof.
  revert s; induction n as [|n IH]; intros [|c s] H; cbn in *;
    try reflexivity; try lia.
  f_equal. apply IH. lia.
Qed.

Lemma length_append (a b : string) :
  String.length (a +++ b) = (String.length a + String.length b)%nat.
Proof. induction a as [|c a IH]; cbn; [reflexivity | now rewrite IH]. Qed.

Lemma allSpace_take (n : nat) (s : string) :
  allSpace s = true -> allSpace (Strings.take n s) = true.
Proof.
  revert s; induction n as [|n IH]; intros [|c s] H; cbn in *; try reflexivity.
  apply andb_true_iff in H as [Hc Hs]. rewrite Hc. now apply IH.
Qed.

Lemma inkByte_inv (c : ascii) :
  inkByte c = true ->
  (Strings.RuneSelf <=? nat_of_ascii c)%nat = false /\ Strings.asciiSpace c = false.
Proof.
  unfold inkByte. intros H. apply andb_true_iff in H as [H1 H2].
  apply Nat.ltb_lt in H1. apply negb_true_iff in H2.
  split; [apply Nat.leb_gt; exact H1 | exact H2].
Qed.

Lemma asciiSpace_ascii (c : ascii) :
  Strings.asciiSpace c = true -> (Strings.RuneSelf <=? nat_of_ascii c)%nat = false.
Proof.
  unfold Strings.asciiSpace, Strings.RuneSelf. intros H. apply Nat.leb_gt.
  destruct (nat_of_ascii c) as [|n]; [lia|].
  do 32 (destruct n as [|n]; [lia|]). discriminate.
Qed.

(** The first loop of [TrimSpace] drops leading white space and stops on
    the first inked byte. *)
Lemma trimStart_lead (lead : string) (c : ascii) (rest : string) :
  allSpace lead = true -> inkByte c = true ->
  Strings.trimStart (lead +++ String c rest) = (String c rest, false).
Proof.
  intros Hl Hc. induction lead as [|d lead IH]; cbn [String.append Strings.trimStart].
  - destruct (inkByte_inv c Hc) as [-> ->]. reflexivity.
  - cbn in Hl. apply andb_true_iff in Hl as [Hd Hl].
    rewrite (asciiSpace_ascii d Hd), Hd. now apply IH.
Qed.

Lemma trimStart_allSpace (s : string) :
  allSpace s = true -> Strings.trimStart s = (EmptyString, false).
Proof.
  induction s as [|d s IH]; intros H; [reflexivity|].
  cbn in H. apply andb_true_iff in H as [Hd Hs].
  cbn [Strings.trimStart]. rewrite (asciiSpace_ascii d Hd), Hd. now apply IH.
Qed.

Lemma trimStop_allSpace (s : string) :
  allSpace s = true -> Strings.trimStop s = (EmptyString, false).
Proof.
  induction s as [|d s IH]; intros H; [reflexivity|].
  cbn in H. apply andb_true_iff in H as [Hd Hs].
  cbn [Strings.trimStop]. rewrite (IH Hs), (asciiSpace_ascii d Hd), Hd.
  reflexivity.
Qed.

(** The second loop of [TrimSpace] drops trailing white space and stops on
    the last inked byte. *)
Lemma trimStop_trail (w trail : string) (d : ascii) :
  lastByte w = Some d -> inkByte d = true -> allSpace trail = true ->
  Strings.trimStop (w +++ trail) = (w, false).
Proof.
  intros Hw Hd Ht. induction w as [|c w IH]; [discriminate|].
  cbn [String.append Strings.trimStop].
  destruct w as [|c' w].
  - cbn in Hw. injection Hw as ->. cbn [String.append].
    rewrite (trimStop_allSpace trail Ht).
    destruct (inkByte_inv d Hd) as [-> ->]. reflexivity.
  - rewrite IH by exact Hw. reflexivity.
Qed.

Lemma TrimSpace_padded F1 F2 (lead w trail : string) :
  allSpace lead = true -> inkEnds w = true -> allSpace trail = true ->
  Strings.TrimSpace F1 F2 (lead +++ w +++ trail) = w.
Proof.
  intros Hl Hw Ht. unfold inkEnds in Hw.
  destruct w as [|c w]; [discriminate|].
  destruct (lastByte (String c w)) as [d|] eqn:Hlast; [|discriminate].
  apply andb_true_iff in Hw as [Hc Hd].
  unfold Strings.TrimSpace.
  change (String c w +++ trail) with (String c (w +++ trail)).
  rewrite (trimStart_lead lead c (w +++ trail) Hl Hc).
  change (String c (w +++ trail)) with (String c w +++ trail).
  now rewrite (trimStop_trail (String c w) trail d Hlast Hd Ht).
Qed.

Lemma TrimSpace_allSpace F1 F2 (s : string) :
  allSpace s = true -> Strings.TrimSpace F1 F2 s = EmptyString.
Proof.
  intros H. unfold Strings.TrimSpace. now rewrite (trimStart_allSpace s H).
Qed.

Lemma File_Read_fits (data : string) :
  data <> EmptyString -> (String.length data <= 128)%nat ->
  File_Read 128 (Delivered data) = (data, None).
Proof.
  intros Hne Hlen. unfold File_Read. rewrite take_all by exact Hlen.
  destruct data; [contradiction | reflexivity].
Qed.

(** ** The control loop *)

(** C5, as the claim states it, fails.  The read takes the first 128
    bytes only: of 123 blanks followed by "pausexyz", whose trimmed text
    is none of the three commands, it keeps the blanks and "pause", and
    the iteration calls [client.Pause].  And an empty payload, whose
    trimmed text is none of them either, is the read error [io.EOF]: the
    loop logs it and the process exits. *)
Lemma C5_counterexample :
  (Strings.TrimSpace Examples.slow Examples.slow Examples.overlong = "pausexyz"
   /\ filter isApiCall
        (trace (controlIteration Examples.slow Examples.slow Examples.controlPipe
                  (Examples.command Examples.overlong) Examples.state))
      = [EvPause (fst Examples.state)])
  /\
  (Strings.TrimSpace Examples.slow Examples.slow "" = ""
   /\ controlLoop Examples.slow Examples.slow Examples.controlPipe
        [Examples.command ""; Examples.command "stop"] Examples.state
      = (readEvents Examples.controlPipe
           ++ [EvLog "unable to fetch track details: EOF"], Exit 1%Z)).
Proof. repeat split; vm_compute; reflexivity. Qed.

(** C5 (amended): the pipe opens and delivers a payload that is not
    empty; the read returns its first 128 bytes (all of it when it has no
    more), trimmed.  When that text is none of "play", "pause", "next",
    the iteration calls nothing of the playback API, logs nothing, does
    not exit, and the loop goes on to open the pipe for its next read. *)
Theorem C5_other_input_ignored F1 F2 pipe env rest st data :
  ctl_open env = None ->
  ctl_input env = Delivered data ->
  data <> EmptyString ->
  let bytes := Strings.take 128 data in
  let action := Strings.TrimSpace F1 F2 bytes in
  action <> Play -> action <> Pause -> action <> Next ->
  let tr := readEvents pipe ++ refreshEvents (ctl_now env) (snd st) in
  let st' := (refreshedClient (ctl_now env) st, snd st) in
  ((String.length data <= 128)%nat -> bytes = data)
  /\ readTrackControlFromPipe F1 F2 (ctl_open env) (ctl_input env) pipe
     = (readEvents pipe, Ret (action, None))
  /\ controlIteration F1 F2 pipe env st = (tr, Ret st')
  /\ filter isApiCall tr = []
  /\ filter isLog tr = []
  /\ continuesWith (controlLoop F1 F2 pipe (env :: rest) st) tr
                   (controlLoop F1 F2 pipe rest st')
  /\ (rest <> [] ->
      exists tr', trace (controlLoop F1 F2 pipe (env :: rest) st)
                  = tr ++ EvOpenFile pipe O_RDONLY :: tr').
Proof.
  intros Ho Hi Hne bytes action H1 H2 H3 tr st'.
  assert (Hread : readTrackControlFromPipe F1 F2 (ctl_open env) (ctl_input env) pipe
                  = (readEvents pipe, Ret (action, None))).
  { rewrite readTrackControlFromPipe_eq, Ho, Hi. unfold File_Read.
    unfold action, bytes.
    destruct data as [|c data]; [contradiction|]. reflexivity. }
  assert (Hit : controlIteration F1 F2 pipe env st = (tr, Ret st')).
  { rewrite controlIteration_eq, Hread. cbn [outcome snd]. cbv zeta.
    rewrite dispatch_other by assumption. cbn [trace ret fst].
    now rewrite app_nil_r. }
  pose proof (controlLoop_continues F1 F2 pipe env rest st tr st' Hit) as Hc.
  split; [exact (take_all 128 data)|].
  repeat split; try assumption.
  - unfold tr. rewrite filter_app, filter_refreshEvents by reflexivity. reflexivity.
  - unfold tr. rewrite filter_app, filter_refreshEvents by reflexivity. reflexivity.
  - intros Hr. destruct rest as [|env' rest']; [contradiction|].
    exact (continues_with_open F1 F2 _ _ _ _ _ _ Hc).
Qed.

Lemma C5_other_input_ignored_witness :
  controlIteration Examples.slow Examples.slow Examples.controlPipe
    (Examples.command "stop") Examples.state
  = (readEvents Examples.controlPipe, Ret Examples.state).
Proof.
  refine (proj1 (proj2 (proj2
            (C5_other_input_ignored Examples.slow Examples.slow
               Examples.controlPipe (Examples.command "stop") []
               Examples.state "stop" eq_refl eq_refl _ _ _ _))));
    discriminate.
Defined.

(** C7: when the control pipe delivers "  pause" followed by a newline,
    the read hands over at most 128 bytes, trimming leaves "pause", and
    the iteration makes exactly one API call, [client.Pause]; whatever
    that call returns, the loop goes on with its next iteration.  The
    read is the same for every payload: it opens the pipe, reads once
    into 128 bytes and closes; it returns the first 128 bytes of the
    payload, trimmed, and [io.EOF] when there are none.  So "pause" with
    any white space around it, within the 128 bytes, is handled as the
    payload above. *)
Theorem C7_pause_payload F1 F2 pipe now api st rest :
  let env := {| ctl_open := None;
                ctl_input := Delivered ("  pause" +++ nl);
                ctl_now := now;
                ctl_api := api |} in
  let client := refreshedClient now st in
  let msg := match api with
             | Some e => "failed to pause track: " +++ e +++ nl
             | None => "paused track" +++ nl
             end in
  let tr := readEvents pipe ++ refreshEvents now (snd st)
            ++ [EvPause client; EvLog msg] in
  (forall input, String.length (fst (File_Read 128 input)) <= 128)%nat
  /\ outcome (readTrackControlFromPipe F1 F2 (ctl_open env) (ctl_input env) pipe)
     = Ret (Pause, None)
  /\ controlIteration F1 F2 pipe env st = (tr, Ret (client, snd st))
  /\ filter isApiCall tr = [EvPause client]
  /\ continuesWith (controlLoop F1 F2 pipe (env :: rest) st) tr
                   (controlLoop F1 F2 pipe rest (client, snd st))
  /\ (rest <> [] ->
      exists tr', trace (controlLoop F1 F2 pipe (env :: rest) st)
                  = tr ++ EvOpenFile pipe O_RDONLY :: tr')
  /\ (forall data,
        readTrackControlFromPipe F1 F2 None (Delivered data) pipe
        = ([EvOpenFile pipe O_RDONLY; EvRead pipe 128; EvClose pipe],
           Ret match Strings.take 128 data with
               | EmptyString => (EmptyString, Some EOF)
               | bytes => (Strings.TrimSpace F1 F2 bytes, None)
               end))
  /\ (forall lead trail,
        allSpace lead = true -> allSpace trail = true ->
        (String.length lead + 5 + String.length trail <= 128)%nat ->
        let padded := {| ctl_open := None;
                         ctl_input := Delivered (lead +++ Pause +++ trail);
                         ctl_now := now;
                         ctl_api := api |} in
        readTrackControlFromPipe F1 F2 (ctl_open padded) (ctl_input padded) pipe
        = (readEvents pipe, Ret (Pause, None))
        /\ controlIteration F1 F2 pipe padded st = (tr, Ret (client, snd st))
        /\ continuesWith (controlLoop F1 F2 pipe (padded :: rest) st) tr
                         (controlLoop F1 F2 pipe rest (client, snd st))).
Proof.
  intros env client msg tr.
  assert (Hit : controlIteration F1 F2 pipe env st = (tr, Ret (client, snd st))).
  { rewrite controlIteration_eq. unfold tr, msg. now destruct api. }
  split.
  { intros [data|e]; [|cbn; lia]. unfold File_Read.
    pose proof (length_take 128 data) as Hl.
    destruct (Strings.take 128 data); [cbn; lia | exact Hl]. }
  split; [reflexivity|]. split; [exact Hit|]. split.
  { unfold tr. rewrite !filter_app, filter_refreshEvents by reflexivity.
    reflexivity. }
  pose proof (controlLoop_continues F1 F2 pipe env rest st tr _ Hit) as Hc.
  split; [exact Hc|]. split.
  { intros Hne. destruct rest as [|env' rest']; [contradiction|].
    exact (continues_with_open F1 F2 _ _ _ _ _ _ Hc). }
  split.
  { intros data. rewrite readTrackControlFromPipe_eq. unfold File_Read, readEvents.
    now destruct (Strings.take 128 data). }
  intros lead trail Hl Ht Hlen padded.
  assert (Hread : readTrackControlFromPipe F1 F2 (ctl_open padded) (ctl_input padded) pipe
                  = (readEvents pipe, Ret (Pause, None))).
  { rewrite readTrackControlFromPipe_eq. cbn [ctl_open ctl_input padded].
    rewrite File_Read_fits.
    - now rewrite TrimSpace_padded.
    - destruct lead; discriminate.
    - rewrite !length_append. cbn [String.length Pause]. lia. }
  assert (Hit' : controlIteration F1 F2 pipe padded st = (tr, Ret (client, snd st))).
  { rewrite controlIteration_eq, Hread. unfold tr, msg. now destruct api. }
  split; [exact Hread|]. split; [exact Hit'|].
  exact (controlLoop_continues F1 F2 pipe padded rest st tr _ Hit').
Qed.

Lemma C7_pause_payload_witness :
  controlIteration Examples.slow Examples.slow Examples.controlPipe
    (Examples.command (nl +++ Pause +++ " ")) Examples.state
  = (readEvents Examples.controlPipe
       ++ [EvPause (fst Examples.state);
           EvLog ("failed to pause track: 403 Forbidden" +++ nl)],
     Ret Examples.state).
Proof.
  refine (proj1 (proj2
            (proj2 (proj2 (proj2 (proj2 (proj2 (proj2 (proj2
               (C7_pause_payload Examples.slow Examples.slow
                  Examples.controlPipe 50%Z (Some "403 Forbidden")
                  Examples.state [])))))))
               nl " " eq_refl eq_refl _))).
  cbn. lia.
Defined.

(** C9: in the control loop an error returned by [client.Play],
    [client.Pause] or [client.Next] is logged, and nothing more: the
    iteration ends normally and the loop goes on with its next read. *)
Theorem C9_api_errors_logged F1 F2 pipe env rest st action e call what :
  outcome (readTrackControlFromPipe F1 F2 (ctl_open env) (ctl_input env) pipe)
    = Ret (action, None) ->
  ctl_api env = Some e ->
  let client := refreshedClient (ctl_now env) st in
  In (action, call, what)
     [ (Play, EvPlay client, "play");
       (Pause, EvPause client, "pause");
       (Next, EvNext client, "skip") ] ->
  let tr := readEvents pipe ++ refreshEvents (ctl_now env) (snd st)
            ++ [call; EvLog ("failed to " +++ what +++ " track: " +++ e +++ nl)] in
  controlIteration F1 F2 pipe env st = (tr, Ret (client, snd st))
  /\ continuesWith (controlLoop F1 F2 pipe (env :: rest) st) tr
                   (controlLoop F1 F2 pipe rest (client, snd st))
  /\ (rest <> [] ->
      exists tr', trace (controlLoop F1 F2 pipe (env :: rest) st)
                  = tr ++ EvOpenFile pipe O_RDONLY :: tr').
Proof.
  intros Hread Hapi client Hin tr.
  assert (Hit : controlIteration F1 F2 pipe env st = (tr, Ret (client, snd st))).
  { rewrite controlIteration_eq, Hread, Hapi. cbv zeta. unfold tr.
    destruct Hin as [H|[H|[H|[]]]]; injection H as <- <- <-; reflexivity. }
  pose proof (controlLoop_continues F1 F2 pipe env rest st tr _ Hit) as Hc.
  repeat split; try assumption.
  intros Hne. destruct rest as [|env' rest']; [contradiction|].
  exact (continues_with_open F1 F2 _ _ _ _ _ _ Hc).
Qed.

Lemma C9_api_errors_logged_witness :
  controlIteration Examples.slow Examples.slow Examples.controlPipe
    (Examples.command "next") Examples.state
  = (readEvents Examples.controlPipe
       ++ [EvNext (fst Examples.state);
           EvLog ("failed to skip track: 403 Forbidden" +++ nl)],
     Ret Examples.state).
Proof.
  refine (proj1 (C9_api_errors_logged Examples.slow Examples.slow
                   Examples.controlPipe (Examples.command "next") []
                   Examples.state Next "403 Forbidden"
                   (EvNext (fst Examples.state)) "skip" eq_refl eq_refl _)).
  right; right; left; reflexivity.
Defined.

(** C10: when opening the control pipe fails, or the read on it fails (a
    pipe closed without data reads as [io.EOF]), the control loop logs a
    diagnostic and the process exits: no API call, no further read. *)
Theorem C10_control_read_errors_fatal F1 F2 pipe env rest st e :
  ctl_open env = Some e \/
  (ctl_open env = None /\ snd (File_Read 128 (ctl_input env)) = Some e) ->
  let tr := match ctl_open env with
            | Some _ => [EvOpenFile pipe O_RDONLY]
            | None => readEvents pipe
            end in
  (exists action,
     readTrackControlFromPipe F1 F2 (ctl_open env) (ctl_input env) pipe
     = (tr, Ret (action, Some e)))
  /\ controlLoop F1 F2 pipe (env :: rest) st
     = (tr ++ [EvLog ("unable to fetch track details: " +++ e)], Exit 1%Z)
  /\ filter isApiCall tr = [].
Proof.
  intros H tr.
  assert (Hread : readTrackControlFromPipe F1 F2 (ctl_open env) (ctl_input env) pipe
                  = (tr, Ret ("", Some e))).
  { rewrite readTrackControlFromPipe_eq. unfold tr.
    destruct H as [->|[-> Hr]]; [reflexivity|].
    destruct (File_Read 128 (ctl_input env)) as [bytes [e'|]];
      cbn in Hr; [|discriminate]. now injection Hr as ->. }
  split; [now exists ""|]. split.
  - apply controlLoop_exits. rewrite controlIteration_eq, Hread. reflexivity.
  - unfold tr. now destruct (ctl_open env).
Qed.

Lemma C10_control_read_errors_fatal_witness :
  controlLoop Examples.slow Examples.slow Examples.controlPipe
    [Examples.silentWriter; Examples.command "play"] Examples.state
  = (readEvents Examples.controlPipe
       ++ [EvLog "unable to fetch track details: EOF"], Exit 1%Z).
Proof.
  refine (proj1 (proj2 (C10_control_read_errors_fatal Examples.slow Examples.slow
            Examples.controlPipe Examples.silentWriter [Examples.command "play"]
            Examples.state EOF _))).
  right. split; reflexivity.
Defined.

(** ** Progress *)

(** C1, the code against its own comment ("between 0 and 1", "percent
    (0-1)"): only the divisor is checked and the quotient is not clamped,
    so for a response whose position, 5, is past the duration, 3, the
    progress computed is above 1. *)
Lemma C1_progress_above_one :
  (0 < track_Duration Examples.songA)%Z /\
  Float64.ltb Float64.one
    (Progress (trackDetails Examples.overrun Examples.songA)) = true /\
  Float64.leb (Progress (trackDetails Examples.overrun Examples.songA))
    Float64.one = false.
Proof. repeat split; vm_compute; reflexivity. Qed.

(** C1, what the code does compute: for a response with an item of
    duration above 0, [Progress] is the float64 quotient of the position
    by the duration, and it lies in [0,1] when the position lies between
    0 and the duration (it is 0 at position 0 and 1 at the end of the
    track); for a duration of 0 (or below) [Progress] is 0 and nothing
    is divided. *)
Theorem C1_progress (cur : CurrentlyPlaying) (item : FullTrack) :
  let position := playing_Progress cur in
  let duration := track_Duration item in
  let P := Progress (trackDetails cur item) in
  ((0 < duration)%Z ->
   P = Float64.div (Float64.of_int position) (Float64.of_int duration))
  /\
  ((0 < duration <= Float64.MaxInt)%Z -> (0 <= position <= duration)%Z ->
   Float64.leb Float64.zero P = true /\ Float64.leb P Float64.one = true
   /\ (position = 0%Z -> P = Float64.zero)
   /\ (position = duration -> P = Float64.one))
  /\
  ((duration <= 0)%Z -> P = Float64.zero).
Proof.
  intros position duration P.
  unfold P. cbn [trackDetails Progress]. unfold progress.
  fold position duration.
  split; [|split].
  - intros Hd. apply Z.ltb_lt in Hd. now rewrite Hd.
  - intros Hd Hp. replace (0 <? duration)%Z with true
      by (symmetry; apply Z.ltb_lt; lia).
    exact (Float64Facts.div_of_int_unit position duration Hp Hd).
  - intros Hd. replace (0 <? duration)%Z with false
      by (symmetry; apply Z.ltb_ge; lia).
    reflexivity.
Qed.

Lemma C1_progress_witness :
  Float64.leb Float64.zero
    (Progress (trackDetails Examples.playingSongA Examples.songA)) = true
  /\ Float64.leb (Progress (trackDetails Examples.playingSongA Examples.songA))
       Float64.one = true.
Proof.
  destruct (proj1 (proj2 (C1_progress Examples.playingSongA Examples.songA)))
    as (H0 & H1 & _).
  - unfold Float64.MaxInt. cbn. lia.
  - cbn. lia.
  - exact (conj H0 H1).
Defined.

(** * Further properties of the code *)

(** ** What [readTrackControlFromPipe] makes of a payload *)

(** X1: a word whose first and last bytes are ASCII and not white space,
    padded on both sides with ASCII white space, in a payload of at most
    128 bytes, is returned as it is. *)
Theorem X1_padded_word_is_read F1 F2 pipe (lead word trail : string) :
  allSpace lead = true -> inkEnds word = true -> allSpace trail = true ->
  (String.length (lead +++ word +++ trail) <= 128)%nat ->
  readTrackControlFromPipe F1 F2 None (Delivered (lead +++ word +++ trail)) pipe
  = (readEvents pipe, Ret (word, None)).
Proof.
  intros Hl Hw Ht Hlen.
  rewrite readTrackControlFromPipe_eq, File_Read_fits; [| |exact Hlen].
  - now rewrite TrimSpace_padded.
  - destruct lead; [|discriminate]. destruct word; discriminate.
Qed.

Lemma X1_padded_word_is_read_witness :
  readTrackControlFromPipe Examples.slow Examples.slow None
    (Delivered ((nl +++ " ") +++ "next" +++ (" " +++ nl))) Examples.controlPipe
  = (readEvents Examples.controlPipe, Ret (Next, None)).
Proof.
  apply (X1_padded_word_is_read Examples.slow Examples.slow Examples.controlPipe
           (nl +++ " ") "next" (" " +++ nl)); try reflexivity.
  cbn. lia.
Defined.

Lemma controlIteration_ignored F1 F2 pipe env st bytes :
  ctl_open env = None ->
  File_Read 128 (ctl_input env) = (bytes, None) ->
  Strings.TrimSpace F1 F2 bytes <> Play ->
  Strings.TrimSpace F1 F2 bytes <> Pause ->
  Strings.TrimSpace F1 F2 bytes <> Next ->
  controlIteration F1 F2 pipe env st =
  (readEvents pipe ++ refreshEvents (ctl_now env) (snd st),
   Ret (refreshedClient (ctl_now env) st, snd st)).
Proof.
  intros Ho Hr H1 H2 H3.
  rewrite controlIteration_eq, readTrackControlFromPipe_eq, Ho, Hr.
  cbn [outcome snd]. cbv zeta.
  rewrite dispatch_other by assumption. cbn [trace ret fst].
  now rewrite app_nil_r.
Qed.

(** X2: a payload made of ASCII white space only is a no-op when it holds
    at least one byte, and is fatal when it holds none: the read of an
    empty pipe is [io.EOF]. *)
Theorem X2_blank_or_empty_payload F1 F2 pipe env st (ws : string) :
  ctl_open env = None ->
  ctl_input env = Delivered ws ->
  allSpace ws = true ->
  controlIteration F1 F2 pipe env st =
  if (ws =? "")%string
  then (readEvents pipe ++ [EvLog "unable to fetch track details: EOF"], Exit 1%Z)
  else (readEvents pipe ++ refreshEvents (ctl_now env) (snd st),
        Ret (refreshedClient (ctl_now env) st, snd st)).
Proof.
  intros Ho Hi Hs. destruct (String.eqb_spec ws "") as [->|Hne].
  - rewrite controlIteration_eq, readTrackControlFromPipe_eq, Ho, Hi. reflexivity.
  - assert (Hr : File_Read 128 (ctl_input env) = (Strings.take 128 ws, None)).
    { rewrite Hi. unfold File_Read. destruct ws as [|c ws]; [contradiction|].
      reflexivity. }
    apply (controlIteration_ignored F1 F2 pipe env st _ Ho Hr);
      rewrite TrimSpace_allSpace by (now apply allSpace_take); discriminate.
Qed.

Lemma X2_blank_or_empty_payload_witness :
  controlIteration Examples.slow Examples.slow Examples.controlPipe
    (Examples.command nl) Examples.state
  = (readEvents Examples.controlPipe, Ret Examples.state)
  /\
  controlIteration Examples.slow Examples.slow Examples.controlPipe
    Examples.silentWriter Examples.state
  = (readEvents Examples.controlPipe
       ++ [EvLog "unable to fetch track details: EOF"], Exit 1%Z).
Proof.
  split.
  - exact (X2_blank_or_empty_payload Examples.slow Examples.slow
             Examples.controlPipe (Examples.command nl) Examples.state nl
             eq_refl eq_refl eq_refl).
  - exact (X2_blank_or_empty_payload Examples.slow Examples.slow
             Examples.controlPipe Examples.silentWriter Examples.state ""
             eq_refl eq_refl eq_refl).
Defined.

(** X3: a command that leading white space pushes across the 128-byte
    buffer is cut by the read, and what is left of it is ignored: no API
    call, no log, and the loop goes on. *)
Theorem X3_command_cut_by_buffer F1 F2 pipe env st (lead cmd trail : string) :
  In cmd [Play; Pause; Next] ->
  allSpace lead = true ->
  (128 < String.length lead + String.length cmd)%nat ->
  ctl_open env = None ->
  ctl_input env = Delivered (lead +++ cmd +++ trail) ->
  controlIteration F1 F2 pipe env st =
  (readEvents pipe ++ refreshEvents (ctl_now env) (snd st),
   Ret (refreshedClient (ctl_now env) st, snd st)).
Proof.
  intros Hin Hl Hlen Ho Hi.
  assert (Hne : Strings.take 128 (lead +++ cmd +++ trail) <> EmptyString).
  { intros E. apply (f_equal String.length) in E.
    rewrite length_take_short in E; [discriminate|].
    rewrite !length_append. lia. }
  assert (Hr : File_Read 128 (ctl_input env)
               = (Strings.take 128 (lead +++ cmd +++ trail), None)).
  { rewrite Hi. unfold File_Read.
    destruct (Strings.take 128 (lead +++ cmd +++ trail)); [contradiction|].
    reflexivity. }
  apply (controlIteration_ignored F1 F2 pipe env st _ Ho Hr);
    clear Hr Hne Hi Ho.
  all: destruct (Nat.le_gt_cases 128 (String.length lead)) as [Hbig|Hsmall];
    [ rewrite take_app_short by exact Hbig;
      rewrite TrimSpace_allSpace by (now apply allSpace_take); discriminate | ].
  all: rewrite take_app by lia.
  all: remember (128 - String.length lead)%nat as k eqn:Hk.
  all: destruct Hin as [<-|[<-|[<-|[]]]]; cbn [String.length Play Pause Next] in Hlen.
  all: assert (Hcases : (k = 1 \/ k = 2 \/ k = 3 \/ k = 4)%nat) by lia.
  all: destruct Hcases as [-> | [-> | [-> | ->]]]; try lia.
  all: cbn [Strings.take Play Pause Next String.append].
  all: match goal with
       | |- Strings.TrimSpace _ _ (?l +++ ?w) <> _ =>
           replace (l +++ w) with (l +++ w +++ "")
             by (now rewrite append_empty_r);
           rewrite TrimSpace_padded by (auto; reflexivity);
           discriminate
       end.
Qed.

Lemma X3_command_cut_by_buffer_witness :
  controlIteration Examples.slow Examples.slow Examples.controlPipe
    (Examples.command
       (String.concat "" (repeat " " 125) +++ "pause" +++ nl))
    Examples.state
  = (readEvents Examples.controlPipe, Ret Examples.state).
Proof.
  refine (X3_command_cut_by_buffer Examples.slow Examples.slow
            Examples.controlPipe
            (Examples.command
               (String.concat "" (repeat " " 125) +++ "pause" +++ nl))
            Examples.state
            (String.concat "" (repeat " " 125)) "pause" nl
            _ eq_refl _ eq_refl eq_refl).
  - right; left; reflexivity.
  - cbn. lia.
Defined.

Lemma filter_isApiCall_dispatch api client action :
  filter isApiCall (trace (dispatch api client action)) =
  match callOf client action with Some e => [e] | None => [] end.
Proof.
  unfold dispatch, callOf.
  destruct (action =? Play)%string; [now destruct api|].
  destruct (action =? Pause)%string; [now destruct api|].
  destruct (action =? Next)%string; [now destruct api|].
  reflexivity.
Qed.

Lemma callOf_Some client action :
  In action [Play; Pause; Next] <-> exists e, callOf client action = Some e.
Proof.
  unfold callOf. split.
  - intros [<-|[<-|[<-|[]]]]; eexists; reflexivity.
  - intros [e He].
    destruct (String.eqb_spec action Play) as [->|_]; [now left|].
    destruct (String.eqb_spec action Pause) as [->|_]; [right; now left|].
    destruct (String.eqb_spec action Next) as [->|_]; [right; right; now left|].
    discriminate.
Qed.

(** X4: an iteration of the control loop calls the playback API at most
    once; it does so exactly when the read succeeds and the trimmed text is
    "play", "pause" or "next", and the call is the one of that action. *)
Theorem X4_control_calls F1 F2 pipe env st :
  let read := outcome (readTrackControlFromPipe F1 F2 (ctl_open env)
                         (ctl_input env) pipe) in
  let calls := filter isApiCall (trace (controlIteration F1 F2 pipe env st)) in
  calls = match read with
          | Ret (action, None) =>
              match callOf (refreshedClient (ctl_now env) st) action with
              | Some e => [e]
              | None => []
              end
          | _ => []
          end
  /\ (List.length calls <= 1)%nat
  /\ (List.length calls = 1%nat <->
      exists action, read = Ret (action, None) /\ In action [Play; Pause; Next]).
Proof.
  intros read calls.
  assert (Hcalls : calls = match read with
          | Ret (action, None) =>
              match callOf (refreshedClient (ctl_now env) st) action with
              | Some e => [e]
              | None => []
              end
          | _ => []
          end).
  { unfold calls, read. rewrite controlIteration_eq.
    destruct (outcome (readTrackControlFromPipe F1 F2 (ctl_open env)
                         (ctl_input env) pipe)) as [[action [e|]]|c] eqn:Hread.
    - rewrite readTrackControlFromPipe_eq in *.
      destruct (ctl_open env); cbn [trace fst]; reflexivity.
    - cbv zeta. cbn [trace fst].
      rewrite !filter_app, filter_refreshEvents by reflexivity.
      now rewrite filter_isApiCall_dispatch.
    - rewrite readTrackControlFromPipe_eq in Hread.
      destruct (ctl_open env); discriminate. }
  split; [exact Hcalls|]. rewrite Hcalls. clear Hcalls calls.
  destruct read as [[action [e|]]|c].
  - cbn. split; [lia|]. split; [discriminate|]. intros (a & Ha & _). discriminate.
  - pose proof (callOf_Some (refreshedClient (ctl_now env) st) action) as Hc.
    destruct (callOf (refreshedClient (ctl_now env) st) action) as [ev|].
    + cbn. split; [lia|]. split; [|reflexivity]. intros _.
      exists action. split; [reflexivity|]. apply Hc. now exists ev.
    + cbn. split; [lia|]. split; [discriminate|].
      intros (a & Ha & Hin). injection Ha as <-.
      apply Hc in Hin as [ev Hev]. discriminate.
  - cbn. split; [lia|]. split; [discriminate|]. intros (a & Ha & _). discriminate.
Qed.

(** ** Whole runs of the two loops *)

Lemma bind_assoc {A B C} (m : M A) (f : A -> M B) (g : B -> M C) :
  bind (bind m f) g = bind m (fun a => bind (f a) g).
Proof.
  destruct m as [tr [a|c]]; [|reflexivity].
  cbn [bind]. destruct (f a) as [tr1 [b|c]]; cbn [bind].
  - destruct (g b) as [tr2 o]. now rewrite app_assoc.
  - reflexivity.
Qed.

Lemma publisherLoop_step pipe env rest st :
  publisherLoop pipe (env :: rest) st =
  match outcome (publisherIteration pipe env st) with
  | Ret st' =>
      (trace (publisherIteration pipe env st) ++ trace (publisherLoop pipe rest st'),
       outcome (publisherLoop pipe rest st'))
  | Exit c => (trace (publisherIteration pipe env st), Exit c)
  end.
Proof.
  rewrite publisherLoop_cons.
  destruct (publisherIteration pipe env st) as [tr [st'|c]]; [|reflexivity].
  now rewrite bind_Ret.
Qed.

Lemma controlLoop_step F1 F2 pipe env rest st :
  controlLoop F1 F2 pipe (env :: rest) st =
  match outcome (controlIteration F1 F2 pipe env st) with
  | Ret st' =>
      (trace (controlIteration F1 F2 pipe env st)
         ++ trace (controlLoop F1 F2 pipe rest st'),
       outcome (controlLoop F1 F2 pipe rest st'))
  | Exit c => (trace (controlIteration F1 F2 pipe env st), Exit c)
  end.
Proof.
  cbn [controlLoop].
  destruct (controlIteration F1 F2 pipe env st) as [tr [st'|c]]; [|reflexivity].
  now rewrite bind_Ret.
Qed.

Lemma forallb_refreshEvents (f : Event -> bool) now token :
  (forall t, f (EvRefreshToken t) = true) ->
  forallb f (refreshEvents now token) = true.
Proof.
  intros Hf. unfold refreshEvents.
  destruct (Before (Expiry token) now); cbn; [now rewrite Hf | reflexivity].
Qed.

Lemma publisherIteration_alphabet pipe env st :
  forallb (publisherEvent pipe) (trace (publisherIteration pipe env st)) = true.
Proof.
  rewrite publisherIteration_eq. cbv zeta.
  destruct (snd (pub_response env)), (pub_open env), (pub_write env);
    cbn [trace fst]; rewrite !forallb_app, forallb_refreshEvents by reflexivity;
    cbn [forallb publisherEvent andb]; rewrite ?String.eqb_refl; reflexivity.
Qed.

Lemma forallb_controlEvent_dispatch pipe api client action :
  forallb (controlEvent pipe) (trace (dispatch api client action)) = true.
Proof.
  unfold dispatch.
  destruct (action =? Play)%string; [now destruct api|].
  destruct (action =? Pause)%string; [now destruct api|].
  destruct (action =? Next)%string; [now destruct api|].
  reflexivity.
Qed.

Lemma controlIteration_alphabet F1 F2 pipe env st :
  forallb (controlEvent pipe) (trace (controlIteration F1 F2 pipe env st)) = true.
Proof.
  rewrite controlIteration_eq, readTrackControlFromPipe_eq.
  destruct (ctl_open env) as [e|]; cbn [outcome snd trace fst].
  - cbn. now rewrite String.eqb_refl.
  - destruct (File_Read 128 (ctl_input env)) as [bytes [e|]]; cbn [trace fst].
    + cbn. now rewrite String.eqb_refl.
    + rewrite !forallb_app, forallb_refreshEvents, forallb_controlEvent_dispatch
        by reflexivity.
      cbn. now rewrite String.eqb_refl.
Qed.

(** X5: whatever the outside world answers, a run of the publisher loop
    only refreshes the token, asks for the current track, opens its own
    pipe for writing, writes to it, closes it, sleeps 3 seconds and logs;
    a run of the control loop only opens its own pipe for reading, reads
    128 bytes from it, closes it, refreshes the token, calls play, pause
    or next, and logs.  So the publisher never reads or issues a control
    call, and the control loop never fetches, writes or sleeps. *)
Theorem X5_loop_alphabets F1 F2 ppipe penvs cpipe cenvs (st : State) :
  forallb (publisherEvent ppipe) (trace (publisherLoop ppipe penvs st)) = true
  /\ forallb (controlEvent cpipe) (trace (controlLoop F1 F2 cpipe cenvs st)) = true.
Proof.
  split.
  - revert st. induction penvs as [|env rest IH]; intros st; [reflexivity|].
    rewrite publisherLoop_step.
    pose proof (publisherIteration_alphabet ppipe env st) as Hit.
    destruct (outcome (publisherIteration ppipe env st)) as [st'|c];
      cbn [trace fst]; [|exact Hit].
    now rewrite forallb_app, Hit, IH.
  - revert st. induction cenvs as [|env rest IH]; intros st; [reflexivity|].
    rewrite controlLoop_step.
    pose proof (controlIteration_alphabet F1 F2 cpipe env st) as Hit.
    destruct (outcome (controlIteration F1 F2 cpipe env st)) as [st'|c];
      cbn [trace fst]; [|exact Hit].
    now rewrite forallb_app, Hit, IH.
Qed.

Lemma count_app f (a b : list Event) : count f (a ++ b) = (count f a + count f b)%nat.
Proof. unfold count. now rewrite filter_app, length_app. Qed.

Lemma count_refreshEvents f now token :
  (forall t, f (EvRefreshToken t) = false) -> count f (refreshEvents now token) = 0%nat.
Proof. intros H. unfold count. now rewrite filter_refreshEvents. Qed.

(** The calls of one publisher iteration, by kind: fetch, open, write,
    close, sleep. *)
Lemma publisherIteration_profile pipe env st :
  let tr := trace (publisherIteration pipe env st) in
  let profile := (count isFetch tr, count isOpen tr, count isWrite tr,
                  count isClose tr, count isSleep tr) in
  match outcome (publisherIteration pipe env st) with
  | Ret _ => profile = (1, 1, 1, 1, 1)%nat
  | Exit c => c = 1%Z /\
              (profile = (1, 0, 0, 0, 0)%nat \/ profile = (1, 1, 0, 0, 0)%nat
               \/ profile = (1, 1, 1, 1, 0)%nat)
  end.
Proof.
  rewrite publisherIteration_eq. cbv zeta.
  destruct (snd (pub_response env)), (pub_open env), (pub_write env);
    cbn [trace fst outcome snd];
    rewrite !count_app, !count_refreshEvents by reflexivity; cbn; auto.
Qed.

(** X6: in any run of the publisher loop every write is followed by a
    close, at most one open (a failed one) is left without a close, and the
    loop never sleeps after an error; a run that is still going after n
    iterations has fetched, opened, written, closed and slept n times. *)
Theorem X6_publisher_counts pipe envs (st : State) :
  let tr := trace (publisherLoop pipe envs st) in
  count isWrite tr = count isClose tr
  /\ (count isSleep tr <= count isClose tr <= count isOpen tr)%nat
  /\ (count isOpen tr <= count isFetch tr <= List.length envs)%nat
  /\ (count isFetch tr <= count isSleep tr + 1)%nat
  /\ match outcome (publisherLoop pipe envs st) with
     | Ret _ => count isSleep tr = List.length envs
     | Exit c => c = 1%Z /\ count isFetch tr = (count isSleep tr + 1)%nat
     end.
Proof.
  revert st. induction envs as [|env rest IH]; intros st.
  - cbn. repeat split; lia.
  - cbv zeta. rewrite publisherLoop_step.
    pose proof (publisherIteration_profile pipe env st) as Hp. cbv zeta in Hp.
    destruct (outcome (publisherIteration pipe env st)) as [st'|c];
      cbn [trace fst outcome snd List.length].
    + injection Hp as H1 H2 H3 H4 H5.
      specialize (IH st'). cbv zeta in IH.
      rewrite !count_app, H1, H2, H3, H4, H5.
      destruct IH as (I1 & I2 & I3 & I4 & I5).
      repeat split; try lia.
      destruct (outcome (publisherLoop pipe rest st')); [lia|].
      destruct I5 as [-> I5]. split; [reflexivity | lia].
    + destruct Hp as [-> [Hp|[Hp|Hp]]]; injection Hp as H1 H2 H3 H4 H5;
        rewrite H1, H2, H3, H4, H5; repeat split; lia.
Qed.

Lemma count_dispatch_io api client action f :
  (forall c, f (EvPlay c) = false) -> (forall c, f (EvPause c) = false) ->
  (forall c, f (EvNext c) = false) -> (forall m, f (EvLog m) = false) ->
  count f (trace (dispatch api client action)) = 0%nat.
Proof.
  intros H1 H2 H3 H4. unfold dispatch, count.
  destruct (action =? Play)%string; [destruct api; cbn; now rewrite H1, H4|].
  destruct (action =? Pause)%string; [destruct api; cbn; now rewrite H2, H4|].
  destruct (action =? Next)%string; [destruct api; cbn; now rewrite H3, H4|].
  reflexivity.
Qed.

Lemma count_isApiCall_dispatch api client action :
  (count isApiCall (trace (dispatch api client action)) <= 1)%nat.
Proof.
  unfold count. rewrite filter_isApiCall_dispatch.
  destruct (callOf client action); cbn; lia.
Qed.

(** The calls of one control iteration, by kind. *)
Lemma controlIteration_profile F1 F2 pipe env st :
  let tr := trace (controlIteration F1 F2 pipe env st) in
  match outcome (controlIteration F1 F2 pipe env st) with
  | Ret _ => count isOpen tr = 1%nat /\ count isRead tr = 1%nat
             /\ count isClose tr = 1%nat /\ (count isApiCall tr <= 1)%nat
  | Exit c => c = 1%Z /\ count isOpen tr = 1%nat
              /\ count isRead tr = count isClose tr
              /\ (count isClose tr <= 1)%nat /\ count isApiCall tr = 0%nat
  end.
Proof.
  rewrite controlIteration_eq, readTrackControlFromPipe_eq.
  destruct (ctl_open env) as [e|]; cbn [outcome snd trace fst].
  - cbn. repeat split; lia.
  - destruct (File_Read 128 (ctl_input env)) as [bytes [e|]];
      cbn [outcome snd trace fst].
    + cbn. repeat split; lia.
    + rewrite !count_app, !count_refreshEvents by reflexivity.
      rewrite !count_dispatch_io by reflexivity.
      pose proof (count_isApiCall_dispatch (ctl_api env)
                    (refreshedClient (ctl_now env) st)
                    (Strings.TrimSpace F1 F2 bytes)).
      cbn. repeat split; lia.
Qed.

(** X7: in any run of the control loop every read is followed by a close,
    there are never more playback calls than reads, and only one open (a
    failed one, which ends the run) can be left without a read; a run
    still going after n iterations has opened, read and closed the pipe n
    times. *)
Theorem X7_control_counts F1 F2 pipe envs (st : State) :
  let tr := trace (controlLoop F1 F2 pipe envs st) in
  count isRead tr = count isClose tr
  /\ (count isApiCall tr <= count isRead tr <= count isOpen tr)%nat
  /\ (count isOpen tr <= List.length envs)%nat
  /\ match outcome (controlLoop F1 F2 pipe envs st) with
     | Ret _ => count isRead tr = List.length envs
     | Exit c => c = 1%Z /\ (count isOpen tr <= count isRead tr + 1)%nat
     end.
Proof.
  revert st. induction envs as [|env rest IH]; intros st.
  - cbn. repeat split; lia.
  - cbv zeta. rewrite controlLoop_step.
    pose proof (controlIteration_profile F1 F2 pipe env st) as Hp. cbv zeta in Hp.
    destruct (outcome (controlIteration F1 F2 pipe env st)) as [st'|c];
      cbn [trace fst outcome snd List.length].
    + destruct Hp as (H1 & H2 & H3 & H4).
      specialize (IH st'). cbv zeta in IH.
      rewrite !count_app, H1, H2, H3.
      destruct IH as (I1 & I2 & I3 & I4).
      repeat split; try lia.
      destruct (outcome (controlLoop F1 F2 pipe rest st')); [lia|].
      destruct I4 as [-> I4]. split; [reflexivity | lia].
    + destruct Hp as (-> & H1 & H2 & H3 & H4).
      repeat split; lia.
Qed.

(** ** The token held by the loops *)








(** ** After an exit *)

Lemma bind_ret_l {A B} (a : A) (k : A -> M B) : bind (ret a) k = k a.
Proof. unfold ret. cbn [bind]. now destruct (k a). Qed.

Lemma publisherLoop_app pipe envs more st :
  publisherLoop pipe (envs ++ more) st =
  bind (publisherLoop pipe envs st) (publisherLoop pipe more).
Proof.
  revert st. induction envs as [|env rest IH]; intros st.
  - cbn [app publisherLoop]. now rewrite bind_ret_l.
  - cbn [app publisherLoop]. rewrite bind_assoc.
    destruct (publisherIteration pipe env st) as [tr [st'|c]]; [|reflexivity].
    now rewrite !bind_Ret, IH.
Qed.

Lemma controlLoop_app F1 F2 pipe envs more st :
  controlLoop F1 F2 pipe (envs ++ more) st =
  bind (controlLoop F1 F2 pipe envs st) (controlLoop F1 F2 pipe more).
Proof.
  revert st. induction envs as [|env rest IH]; intros st.
  - cbn [app controlLoop]. now rewrite bind_ret_l.
  - cbn [app controlLoop]. rewrite bind_assoc.
    destruct (controlIteration F1 F2 pipe env st) as [tr [st'|c]]; [|reflexivity].
    now rewrite !bind_Ret, IH.
Qed.

Lemma ends_with_log (a l : list Event) (m : string) :
  exists tr' msg, a ++ l ++ [EvLog m] = tr' ++ [EvLog msg].
Proof. exists (a ++ l), m. now rewrite app_assoc. Qed.

Lemma publisherIteration_exit pipe env st tr c :
  publisherIteration pipe env st = (tr, Exit c) ->
  c = 1%Z /\ exists tr' msg, tr = tr' ++ [EvLog msg].
Proof.
  rewrite publisherIteration_eq. cbv zeta.
  destruct (snd (pub_response env)), (pub_open env), (pub_write env);
    intros H; try discriminate; injection H as <- <-; (split; [reflexivity|]).
  all: first [ eexists; eexists; reflexivity
             | apply (ends_with_log _ [_])
             | apply (ends_with_log _ [_; _; _]) ].
Qed.

Lemma controlIteration_exit F1 F2 pipe env st tr c :
  controlIteration F1 F2 pipe env st = (tr, Exit c) ->
  c = 1%Z /\ exists tr' msg, tr = tr' ++ [EvLog msg].
Proof.
  rewrite controlIteration_eq, readTrackControlFromPipe_eq.
  destruct (ctl_open env) as [e|]; cbn [outcome snd trace fst].
  - intros H. injection H as <- <-. split; [reflexivity|].
    apply (ends_with_log [] [_]).
  - destruct (File_Read 128 (ctl_input env)) as [bytes [e|]];
      intros H; [|discriminate].
    injection H as <- <-. split; [reflexivity|].
    apply (ends_with_log [] [_; _; _]).
Qed.

(** X10: once an iteration of the publisher loop has called [log.Fatalf]
    nothing follows: the exit code is 1, the diagnostic is the last thing
    in the trace, and further iterations add nothing; while the loop is
    still going, a longer run is the shorter run followed by the rest. *)
Theorem X10_publisher_exit_is_final pipe envs more (st : State) :
  (forall tr c,
     publisherLoop pipe envs st = (tr, Exit c) ->
     c = 1%Z
     /\ (exists tr' msg, tr = tr' ++ [EvLog msg])
     /\ publisherLoop pipe (envs ++ more) st = (tr, Exit c))
  /\
  (forall tr st',
     publisherLoop pipe envs st = (tr, Ret st') ->
     continuesWith (publisherLoop pipe (envs ++ more) st) tr
                   (publisherLoop pipe more st')).
Proof.
  split.
  - intros tr c H. split; [|split].
    + revert st tr H. induction envs as [|env rest IH]; intros st tr H;
        [discriminate|].
      rewrite publisherLoop_step in H.
      destruct (publisherIteration pipe env st) as [tr1 [st1|c1]] eqn:Hit;
        cbn [outcome snd trace fst] in H.
      * destruct (publisherLoop pipe rest st1) as [tr2 o2] eqn:Hrest.
        cbn [outcome snd trace fst] in H. injection H as <- ->.
        exact (IH st1 tr2 Hrest).
      * injection H as <- <-.
        exact (proj1 (publisherIteration_exit pipe env st tr1 c1 Hit)).
    + revert st tr H. induction envs as [|env rest IH]; intros st tr H;
        [discriminate|].
      rewrite publisherLoop_step in H.
      destruct (publisherIteration pipe env st) as [tr1 [st1|c1]] eqn:Hit;
        cbn [outcome snd trace fst] in H.
      * destruct (publisherLoop pipe rest st1) as [tr2 o2] eqn:Hrest.
        cbn [outcome snd trace fst] in H. injection H as <- ->.
        destruct (IH st1 tr2 Hrest) as (tr' & msg & ->).
        exists (tr1 ++ tr'), msg. now rewrite app_assoc.
      * injection H as <- <-.
        exact (proj2 (publisherIteration_exit pipe env st tr1 c1 Hit)).
    + now rewrite publisherLoop_app, H.
  - intros tr st' H. unfold continuesWith.
    now rewrite publisherLoop_app, H, bind_Ret.
Qed.

Lemma X10_publisher_exit_is_final_witness :
  publisherLoop Examples.trackPipe
    ([Examples.idle; Examples.writeFails] ++ [Examples.late; Examples.later])
    Examples.state
  = publisherLoop Examples.trackPipe [Examples.idle; Examples.writeFails]
      Examples.state.
Proof.
  exact (proj2 (proj2 (proj1 (X10_publisher_exit_is_final Examples.trackPipe
           [Examples.idle; Examples.writeFails] [Examples.late; Examples.later]
           Examples.state) _ _ eq_refl))).
Defined.

(** X11: the same for the control loop: after a fatal open or read the
    exit code is 1, the diagnostic is the last thing in the trace and
    further iterations add nothing; while the loop is still going, a
    longer run is the shorter run followed by the rest. *)
Theorem X11_control_exit_is_final F1 F2 pipe envs more (st : State) :
  (forall tr c,
     controlLoop F1 F2 pipe envs st = (tr, Exit c) ->
     c = 1%Z
     /\ (exists tr' msg, tr = tr' ++ [EvLog msg])
     /\ controlLoop F1 F2 pipe (envs ++ more) st = (tr, Exit c))
  /\
  (forall tr st',
     controlLoop F1 F2 pipe envs st = (tr, Ret st') ->
     continuesWith (controlLoop F1 F2 pipe (envs ++ more) st) tr
                   (controlLoop F1 F2 pipe more st')).
Proof.
  split.
  - intros tr c H. split; [|split].
    + revert st tr H. induction envs as [|env rest IH]; intros st tr H;
        [discriminate|].
      rewrite controlLoop_step in H.
      destruct (controlIteration F1 F2 pipe env st) as [tr1 [st1|c1]] eqn:Hit;
        cbn [outcome snd trace fst] in H.
      * destruct (controlLoop F1 F2 pipe rest st1) as [tr2 o2] eqn:Hrest.
        cbn [outcome snd trace fst] in H. injection H as <- ->.
        exact (IH st1 tr2 Hrest).
      * injection H as <- <-.
        exact (proj1 (controlIteration_exit F1 F2 pipe env st tr1 c1 Hit)).
    + revert st tr H. induction envs as [|env rest IH]; intros st tr H;
        [discriminate|].
      rewrite controlLoop_step in H.
      destruct (controlIteration F1 F2 pipe env st) as [tr1 [st1|c1]] eqn:Hit;
        cbn [outcome snd trace fst] in H.
      * destruct (controlLoop F1 F2 pipe rest st1) as [tr2 o2] eqn:Hrest.
        cbn [outcome snd trace fst] in H. injection H as <- ->.
        destruct (IH st1 tr2 Hrest) as (tr' & msg & ->).
        exists (tr1 ++ tr'), msg. now rewrite app_assoc.
      * injection H as <- <-.
        exact (proj2 (controlIteration_exit F1 F2 pipe env st tr1 c1 Hit)).
    + now rewrite controlLoop_app, H.
  - intros tr st' H. unfold continuesWith.
    now rewrite controlLoop_app, H, bind_Ret.
Qed.

Lemma X11_control_exit_is_final_witness :
  controlLoop Examples.slow Examples.slow Examples.controlPipe
    ([Examples.command "play"; Examples.silentWriter] ++ [Examples.command "next"])
    Examples.state
  = controlLoop Examples.slow Examples.slow Examples.controlPipe
      [Examples.command "play"; Examples.silentWriter] Examples.state.
Proof.
  exact (proj2 (proj2 (proj1 (X11_control_exit_is_final Examples.slow Examples.slow
           Examples.controlPipe
           [Examples.command "play"; Examples.silentWriter]
           [Examples.command "next"] Examples.state) _ _ eq_refl))).
Defined.

(** ** Creating the pipes *)

(** X12: each thread first removes whatever is at its own path under
    [/tmp] and then runs [mkfifo] on it; when [mkfifo] fails the thread
    logs the error and the process exits before any loop iteration, and
    when it succeeds the loop runs on exactly that path.  The two threads
    use different paths. *)
Theorem X12_pipe_creation F1 F2 (mkfifo_err : option error) penvs cenvs (st : State) :
  let setup (path : string) :=
    [EvRemove path; EvLog ("creating named pipe" +++ nl); EvMkfifo path] in
  let track := "/tmp/fifoplayer-track" in
  let control := "/tmp/fifoplayer-control" in
  track <> control
  /\ match mkfifo_err with
     | Some e =>
         createTempNamedPipe mkfifo_err pipeTrackDetails
           = (setup track, Ret ("", Some e))
         /\ publisherThread mkfifo_err penvs st
           = (setup track ++ [EvLog ("could not make named pipe: " +++ e)], Exit 1%Z)
         /\ controlThread F1 F2 mkfifo_err cenvs st
           = (setup control ++ [EvLog ("could not make named pipe: " +++ e)], Exit 1%Z)
     | None =>
         continuesWith (publisherThread mkfifo_err penvs st)
           (setup track ++ [EvLog ("created pipe " +++ track +++ nl)])
           (publisherLoop track penvs st)
         /\ continuesWith (controlThread F1 F2 mkfifo_err cenvs st)
           (setup control ++ [EvLog ("created pipe " +++ control +++ nl)])
           (controlLoop F1 F2 control cenvs st)
     end.
Proof.
  cbv zeta. split; [discriminate|].
  destruct mkfifo_err as [e|].
  - repeat split.
  - split.
    + apply publisherThread_runs_loop.
    + apply controlThread_runs_loop.
Qed.

(** ** What [fetchTrackDetails] returns *)

(** X13: [fetchTrackDetails] makes exactly one call,
    [PlayerCurrentlyPlaying], and never returns both details and an
    error: the error of the call is passed on as it is (a response that
    came with it is dropped), and details are returned exactly when there
    is no error and the response has an item; they carry the name of the
    item, the name of its album and the joined names of its artists. *)
Theorem X13_fetchTrackDetails_contract
    (response : option CurrentlyPlaying * option error) (client : Client) :
  exists details err,
    fetchTrackDetails response client
      = ([EvPlayerCurrentlyPlaying client], Ret (details, err))
    /\ err = snd response
    /\ (details = None \/ err = None)
    /\ (forall d, details = Some d <->
          snd response = None /\
          exists cur item,
            fst response = Some cur /\ playing_Item cur = Some item
            /\ d = trackDetails cur item)
    /\ (forall d, details = Some d ->
          exists cur item,
            fst response = Some cur /\ playing_Item cur = Some item
            /\ Name d = track_Name item
            /\ Album d = album_Name (track_Album item)
            /\ Artists d = Join (map artist_Name (track_Artists item)) ", ").
Proof.
  rewrite fetchTrackDetails_eq.
  destruct response as [current [e|]]; cbn [snd fst].
  - exists None, (Some e). repeat split; try (now left); try discriminate.
    intros (H & _). discriminate.
  - exists (playingDetails current), None.
    assert (Hiff : forall d, playingDetails current = Some d <->
              exists cur item, current = Some cur /\ playing_Item cur = Some item
                               /\ d = trackDetails cur item).
    { intros d. unfold playingDetails. destruct current as [cur|].
      - destruct (playing_Item cur) as [item|] eqn:Hi.
        + split.
          * intros H. injection H as <-. now exists cur, item.
          * intros (cur' & item' & Hc & Hi' & ->). injection Hc as <-.
            rewrite Hi in Hi'. now injection Hi' as <-.
        + split; [discriminate|].
          intros (cur' & item' & Hc & Hi' & _). injection Hc as <-.
          rewrite Hi in Hi'. discriminate.
      - split; [discriminate|]. intros (cur' & item' & Hc & _). discriminate. }
    repeat split; try (now right).
    + apply Hiff. assumption.
    + intros (_ & H). now apply Hiff.
    + intros d Hd. apply Hiff in Hd as (cur & item & Hc & Hi & ->).
      exists cur, item. repeat split; try assumption.
      cbn [trackDetails Artists]. apply artistNames_Join.
Qed.

(** ** More on the artist string *)

Lemma Join_rest_app (l1 l2 : list string) :
  Join_rest (l1 ++ l2) = Join_rest l1 +++ Join_rest l2.
Proof.
  induction l1 as [|x l1 IH]; [reflexivity|].
  cbn [app Join_rest]. now rewrite IH, !append_assoc.
Qed.

Lemma length_Join_rest (l : list string) :
  String.length (Join_rest l) = (totalLength l + 2 * List.length l)%nat.
Proof.
  induction l as [|x l IH]; [reflexivity|].
  cbn [Join_rest totalLength List.length].
  rewrite !length_append, IH. cbn [String.length]. lia.
Qed.

(** X14: the artist string of a list put together from two non-empty
    lists is the two artist strings with one [", "] between them; every
    artist's name occurs in the string as it is; and the string is as
    long as all the names together plus two bytes for each artist but the
    first: nothing is cut off. *)
Theorem X14_artist_string_composes (l1 l2 : list SimpleArtist) :
  (l1 <> [] -> l2 <> [] ->
   artistNames (l1 ++ l2) = artistNames l1 +++ ", " +++ artistNames l2)
  /\ (forall a, In a l1 ->
        exists before after,
          artistNames l1 = before +++ artist_Name a +++ after)
  /\ (l1 <> [] ->
      String.length (artistNames l1) =
      (totalLength (map artist_Name l1) + 2 * (List.length l1 - 1))%nat).
Proof.
  split; [|split].
  - intros H1 H2. rewrite !artistNames_Join.
    destruct l1 as [|a l1]; [contradiction|].
    destruct l2 as [|b l2]; [contradiction|].
    cbn [app map]. rewrite map_app. cbn [map].
    rewrite !Join_cons, Join_rest_app. cbn [Join_rest].
    now rewrite !append_assoc.
  - intros a Hin. rewrite artistNames_Join.
    induction l1 as [|b l1 IH]; [contradiction|].
    cbn [map]. rewrite Join_cons. destruct Hin as [->|Hin].
    + exists "", (Join_rest (map artist_Name l1)). reflexivity.
    + destruct l1 as [|c l1]; [contradiction|].
      destruct (IH Hin) as (before & after & E).
      cbn [map] in E. rewrite Join_cons in E.
      exists (artist_Name b +++ ", " +++ before), after.
      cbn [map Join_rest]. rewrite E. now rewrite !append_assoc.
  - intros H. rewrite artistNames_Join.
    destruct l1 as [|a l1]; [contradiction|].
    cbn [map]. rewrite Join_cons, length_append, length_Join_rest.
    cbn [totalLength List.length]. rewrite length_map. lia.
Qed.

Lemma X14_artist_string_composes_witness :
  artistNames (Examples.tyler ++ track_Artists Examples.songA)
  = "Tyler, The Creator, X, Y".
Proof.
  refine (proj1 (X14_artist_string_composes Examples.tyler
                   (track_Artists Examples.songA)) _ _); discriminate.
Defined.

(** ** The line for "nothing is playing" *)

Lemma HasPrefix_append (sep rest : string) :
  Strings.HasPrefix (sep +++ rest) sep = true.
Proof.
  induction sep as [|c sep IH]; [reflexivity|].
  cbn [String.append Strings.HasPrefix]. now rewrite Ascii.eqb_refl, IH.
Qed.

Lemma occurrences_inside (sep a b : string) :
  sep <> EmptyString ->
  (1 <= Strings.occurrences sep (a +++ sep +++ b))%nat.
Proof.
  intros Hsep. induction a as [|c a IH].
  - cbn [String.append]. destruct sep as [|c sep]; [contradiction|].
    change (String c sep +++ b) with (String c (sep +++ b)).
    cbn [Strings.occurrences].
    change (String c (sep +++ b)) with (String c sep +++ b).
    rewrite HasPrefix_append. lia.
  - change (String c a +++ sep +++ b) with (String c (a +++ sep +++ b)).
    cbn [Strings.occurrences]. lia.
Qed.

(** X15: the line written is the text "No track currently playing"
    exactly when [fetchTrackDetails] returned no details: no track, what
    ever its name and artists, gives that line, because the line of a
    track always holds [" - "]. *)
Theorem X15_no_track_line_is_unambiguous (details : option TrackDetails) :
  output details = "No track currently playing" <-> details = None.
Proof.
  split; [|now intros ->].
  destruct details as [d|]; [|reflexivity]. intros H. exfalso.
  pose proof (occurrences_inside " - " (Name d) (Artists d) ltac:(discriminate))
    as Hocc.
  cbn [output] in H. rewrite H in Hocc. vm_compute in Hocc. lia.
Qed.

(** ** Start-up *)

Lemma bindS_Ret {A B} (tr : list StartupEvent) (a : A) (k : A -> MS B) :
  bindS (tr, Ret a) k = (tr ++ fst (k a), snd (k a)).
Proof. unfold bindS. now destruct (k a). Qed.

(** X16: [setupAuthenticator] returns an authenticator exactly when the
    [.env] file loads and [SPOTIFY_ID], [SPOTIFY_SECRET] and
    [SPOTIFY_REDIRECT] are all non-empty; it then holds these three values
    and the three scopes.  Otherwise the process logs one line and exits
    with code 1. *)
Theorem X16_setupAuthenticator (load_err : option error) (Getenv : string -> string) :
  let configured :=
    load_err = None /\ Getenv "SPOTIFY_ID" <> "" /\ Getenv "SPOTIFY_SECRET" <> ""
    /\ Getenv "SPOTIFY_REDIRECT" <> "" in
  (configured ->
   setupAuthenticator load_err Getenv =
   ([SvLoadDotenv],
    Ret {| clientID := Getenv "SPOTIFY_ID";
           clientSecret := Getenv "SPOTIFY_SECRET";
           redirectURL := Getenv "SPOTIFY_REDIRECT";
           scopes := [ScopeUserReadCurrentlyPlaying;
                      ScopeUserReadPlaybackState;
                      ScopeUserModifyPlaybackState] |}))
  /\
  (~ configured ->
   exists msg,
     setupAuthenticator load_err Getenv = ([SvLoadDotenv; SvLog msg], Exit 1%Z)).
Proof.
  cbv zeta. unfold setupAuthenticator. split.
  - intros (-> & H1 & H2 & H3).
    apply String.eqb_neq in H1, H2, H3. now rewrite H1, H2, H3.
  - intros Hn. destruct load_err as [e|]; [eexists; reflexivity|].
    destruct (String.eqb_spec (Getenv "SPOTIFY_ID") "") as [E1|N1];
      [eexists; reflexivity|].
    destruct (String.eqb_spec (Getenv "SPOTIFY_SECRET") "") as [E2|N2];
      [eexists; reflexivity|].
    destruct (String.eqb_spec (Getenv "SPOTIFY_REDIRECT") "") as [E3|N3];
      [eexists; reflexivity|].
    exfalso. apply Hn. repeat split; assumption.
Qed.

Lemma X16_setupAuthenticator_witness :
  setupAuthenticator None Examples.getenv
    = ([SvLoadDotenv], Ret StartupExamples.authenticator)
  /\ exists msg,
       setupAuthenticator None Examples.getenvNoSecret
       = ([SvLoadDotenv; SvLog msg], Exit 1%Z).
Proof.
  split.
  - refine (proj1 (X16_setupAuthenticator None Examples.getenv) _).
    repeat split; discriminate.
  - refine (proj2 (X16_setupAuthenticator None Examples.getenvNoSecret) _).
    intros (_ & _ & H & _). now apply H.
Defined.

Lemma awaitCode_received (rs : list Values) : snd (awaitCode rs) = firstCode rs.
Proof.
  induction rs as [|q rs IH]; [reflexivity|].
  cbn [awaitCode firstCode]. unfold callbackHandler.
  destruct (Values_Get q "code" =? "")%string; [|reflexivity].
  destruct (awaitCode rs) as [answers code]. exact IH.
Qed.

Lemma awaitCode_answers (rs : list Values) :
  filter isExchange (fst (awaitCode rs)) = []
  /\ filter isLoopEvent (fst (awaitCode rs)) = [].
Proof.
  induction rs as [|q rs IH]; [split; reflexivity|].
  cbn [awaitCode]. unfold callbackHandler.
  destruct (Values_Get q "code" =? "")%string; [|split; reflexivity].
  destruct (awaitCode rs) as [answers code]. exact IH.
Qed.

Lemma firstCode_nonempty (rs : list Values) (code : string) :
  firstCode rs = Some code -> code <> "".
Proof.
  induction rs as [|q rs IH]; [discriminate|].
  cbn [firstCode].
  destruct (String.eqb_spec (Values_Get q "code") "") as [E|N]; [exact IH|].
  intros H. now injection H as <-.
Qed.

Lemma setupClient_eq (a : Authenticator) (env : ClientEnv) :
  setupClient a env =
  let opened := [SvOpenAuthURL a "state-token"] in
  match open_err env with
  | Some _ => (opened ++ [SvLog "could not open the spotifyAuthUrl"], Exit 1%Z)
  | None =>
      match listen_err env with
      | Some e =>
          (opened ++ [SvListen ":8080"; SvLog ("HTTP server error: " +++ e)],
           Exit 1%Z)
      | None =>
          let served := opened ++ [SvListen ":8080"] ++ fst (awaitCode (requests env)) in
          match firstCode (requests env) with
          | None => (served, Ret None)
          | Some code =>
              let tried := served ++ [SvShutdown; SvExchange a code] in
              match snd (exchanged env) with
              | Some e => (tried ++ [SvLog ("could not get token: " +++ e)], Exit 1%Z)
              | None =>
                  (tried, Ret (Some ({| client_token := fst (exchanged env) |},
                                     fst (exchanged env))))
              end
          end
      end
  end.
Proof.
  unfold setupClient. cbv zeta.
  destruct (open_err env) as [e|]; [reflexivity|].
  destruct (listen_err env) as [e|]; [reflexivity|].
  rewrite <- awaitCode_received.
  destruct (awaitCode (requests env)) as [answers [code|]]; cbn [fst snd].
  - destruct (exchanged env) as [token [e|]]; cbn [fst snd bindS emitS retS FatalS app];
      rewrite <- ?app_assoc; cbn [app]; rewrite ?app_nil_r; reflexivity.
  - cbn [bindS emitS retS app]. now rewrite app_nil_r.
Qed.

(** X17: when [setupClient] returns, the code it has exchanged is the
    first non-empty [code] parameter among the callbacks, it has called
    [Exchange] exactly once, and the client it returns was made from the
    token of that exchange; as long as no callback carries a code it stays
    blocked and exchanges nothing; and when the browser cannot be opened
    it exits before listening. *)
Theorem X17_setupClient (a : Authenticator) (env : ClientEnv) :
  (forall tr st,
     setupClient a env = (tr, Ret (Some st)) ->
     exists code,
       firstCode (requests env) = Some code /\ code <> ""
       /\ filter isExchange tr = [SvExchange a code]
       /\ st = ({| client_token := fst (exchanged env) |}, fst (exchanged env))
       /\ snd (exchanged env) = None)
  /\
  (firstCode (requests env) = None ->
   filter isExchange (fst (setupClient a env)) = []
   /\ forall st, snd (setupClient a env) <> Ret (Some st))
  /\
  (open_err env <> None ->
   setupClient a env =
   ([SvOpenAuthURL a "state-token"; SvLog "could not open the spotifyAuthUrl"],
    Exit 1%Z)).
Proof.
  rewrite setupClient_eq. cbv zeta.
  destruct (awaitCode_answers (requests env)) as [Hx _].
  split; [|split].
  - intros tr st H.
    destruct (open_err env) as [e|]; [discriminate|].
    destruct (listen_err env) as [e|]; [discriminate|].
    destruct (firstCode (requests env)) as [code|] eqn:Hc; [|discriminate].
    destruct (snd (exchanged env)) as [e|]; [discriminate|].
    injection H as <- <-. exists code.
    repeat split; try reflexivity.
    + exact (firstCode_nonempty _ _ Hc).
    + cbn [app]. cbn [filter isExchange]. rewrite filter_app, Hx. reflexivity.
  - intros Hnone. rewrite Hnone.
    destruct (open_err env) as [e|]; [split; [reflexivity|discriminate]|].
    destruct (listen_err env) as [e|]; [split; [reflexivity|discriminate]|].
    cbn [fst snd]. split; [|discriminate].
    cbn [app]. cbn [filter isExchange]. exact Hx.
  - intros Ho. destruct (open_err env) as [e|]; [reflexivity|contradiction].
Qed.

Lemma X17_setupClient_witness :
  exists code,
    firstCode (requests StartupExamples.login) = Some code /\ code <> ""
    /\ filter isExchange
         (fst (setupClient StartupExamples.authenticator StartupExamples.login))
       = [SvExchange StartupExamples.authenticator code]
    /\ Examples.state
       = ({| client_token := fst (exchanged StartupExamples.login) |},
          fst (exchanged StartupExamples.login))
    /\ snd (exchanged StartupExamples.login) = None.
Proof.
  exact (proj1 (X17_setupClient StartupExamples.authenticator StartupExamples.login)
           _ Examples.state eq_refl).
Defined.

Lemma setupAuthenticator_cases (load_err : option error) (Getenv : string -> string) :
  (exists a, setupAuthenticator load_err Getenv = ([SvLoadDotenv], Ret a))
  \/ (exists msg, setupAuthenticator load_err Getenv
                  = ([SvLoadDotenv; SvLog msg], Exit 1%Z)).
Proof.
  unfold setupAuthenticator.
  destruct load_err as [e|]; [right; eexists; reflexivity|].
  destruct ((Getenv "SPOTIFY_ID" =? "")%string
            || (Getenv "SPOTIFY_SECRET" =? "")%string
            || (Getenv "SPOTIFY_REDIRECT" =? "")%string);
    [right | left]; eexists; reflexivity.
Qed.

Lemma setupClient_no_loop_event (a : Authenticator) (env : ClientEnv) :
  filter isLoopEvent (fst (setupClient a env)) = [].
Proof.
  rewrite setupClient_eq. cbv zeta.
  destruct (awaitCode_answers (requests env)) as [_ Hl].
  destruct (open_err env) as [e|]; [reflexivity|].
  destruct (listen_err env) as [e|]; [reflexivity|].
  destruct (firstCode (requests env)) as [code|].
  - destruct (snd (exchanged env)) as [e|]; cbn [fst]; cbn [app];
      cbn [filter isLoopEvent]; rewrite !filter_app, Hl; reflexivity.
  - cbn [fst app]. cbn [filter isLoopEvent]. exact Hl.
Qed.

(** X18: on the main thread nothing of the control thread happens (no
    pipe is made, nothing is read, no playback call goes out) unless the
    configuration was complete and the authorization code was exchanged
    for a token; and then the trace is: the start-up calls, the start of
    the publisher goroutine, the control thread run with the client made
    from that token. *)
Theorem X18_main_order F1 F2 (load_err : option error) (Getenv : string -> string)
    (env : ClientEnv) (mkfifo_err : option error) (envs : list ControlEnv) :
  let run := main F1 F2 load_err Getenv env mkfifo_err envs in
  filter isLoopEvent (fst run) <> [] ->
  exists a st pre,
    setupAuthenticator load_err Getenv = ([SvLoadDotenv], Ret a)
    /\ setupClient a env = (pre, Ret (Some st))
    /\ filter isLoopEvent pre = []
    /\ fst st = {| client_token := snd st |}
    /\ fst run = SvLoadDotenv :: pre ++ SvGo
                   :: map SvLoop (trace (controlThread F1 F2 mkfifo_err envs st)).
Proof.
  cbv zeta. unfold main.
  destruct (setupAuthenticator_cases load_err Getenv) as [[a Ha]|[msg Hm]].
  - rewrite Ha, bindS_Ret. unfold startFifoPipes.
    pose proof (setupClient_no_loop_event a env) as Hnl.
    destruct (setupClient a env) as [pre [[st|]|c]] eqn:Hsc; cbn [fst] in Hnl.
    + intros _. exists a, st, pre. repeat split; try assumption.
      * pose proof Hsc as Hsc'. rewrite setupClient_eq in Hsc'. cbv zeta in Hsc'.
        destruct (open_err env); [discriminate|].
        destruct (listen_err env); [discriminate|].
        destruct (firstCode (requests env)); [|discriminate].
        destruct (snd (exchanged env)); [discriminate|].
        injection Hsc' as _ <-. reflexivity.
      * rewrite bindS_Ret. cbn [fst app]. f_equal. f_equal.
        unfold emitS. rewrite bindS_Ret. cbn [fst app]. f_equal.
        unfold liftS.
        destruct (controlThread F1 F2 mkfifo_err envs st) as [tr [st'|c]];
          cbn [bindS retS fst snd trace]; now rewrite ?app_nil_r.
    + rewrite bindS_Ret. cbn [fst retS app]. rewrite app_nil_r.
      cbn [filter isLoopEvent]. intros H. now rewrite Hnl in H.
    + cbn [bindS fst app]. cbn [filter isLoopEvent].
      intros H. now rewrite Hnl in H.
  - rewrite Hm. cbn. intros H. contradiction.
Qed.

Lemma X18_main_order_witness :
  exists a st pre,
    setupAuthenticator None Examples.getenv = ([SvLoadDotenv], Ret a)
    /\ setupClient a StartupExamples.login = (pre, Ret (Some st))
    /\ filter isLoopEvent pre = []
    /\ fst st = {| client_token := snd st |}
    /\ fst (main Examples.slow Examples.slow None Examples.getenv
              StartupExamples.login None [Examples.command "next"])
       = SvLoadDotenv :: pre ++ SvGo
           :: map SvLoop
                (trace (controlThread Examples.slow Examples.slow None
                          [Examples.command "next"] st)).
Proof.
  apply (X18_main_order Examples.slow Examples.slow None Examples.getenv
           StartupExamples.login None [Examples.command "next"]).
  vm_compute. discriminate.
Defined.

(** ** float64: the quotient as a function of the numerator *)

Module Float64Order.
Import Float64 Float64Ext Float64Facts.
Local Open Scope Z_scope.

Lemma rnd_bounds a b : a / b <= rnd a b <= a / b + 1.
Proof.
  unfold rnd. destruct (2 * (a mod b) ?= b); try lia.
  destruct (Z.even (a / b)); lia.
Qed.

Lemma rnd_mono a1 a2 b : 0 < b -> a1 <= a2 -> rnd a1 b <= rnd a2 b.
Proof.
  intros Hb Hle.
  pose proof (Z.div_le_mono a1 a2 b Hb Hle) as Hq.
  destruct (Z.eq_dec (a1 / b) (a2 / b)) as [Heq|Hne].
  - assert (Hr : a1 mod b <= a2 mod b).
    { pose proof (Z.div_mod a1 b). pose proof (Z.div_mod a2 b). nia. }
    unfold rnd. rewrite Heq.
    destruct (Z.compare_spec (2 * (a1 mod b)) b);
      destruct (Z.compare_spec (2 * (a2 mod b)) b);
      destruct (Z.even (a2 / b)); lia.
  - pose proof (rnd_bounds a1 b). pose proof (rnd_bounds a2 b). lia.
Qed.

Lemma rnd_scale c a b : 0 < c -> 0 < b -> rnd (c * a) (c * b) = rnd a b.
Proof.
  intros Hc Hb. unfold rnd.
  rewrite Z.div_mul_cancel_l by lia.
  rewrite Z.mul_mod_distr_l by lia.
  replace (2 * (c * (a mod b))) with (c * (2 * (a mod b))) by lia.
  destruct (Z.compare_spec (2 * (a mod b)) b);
    destruct (Z.compare_spec (c * (2 * (a mod b))) (c * b));
    try reflexivity; nia.
Qed.

Lemma bits_quotient a b k :
  0 < b -> 0 < k -> 2 ^ (k - 1) * b <= a < 2 ^ k * b -> bits (a / b) = k.
Proof.
  intros Hb Hk [Hlo Hhi].
  assert (H1 : 2 ^ (k - 1) <= a / b) by (apply Z.div_le_lower_bound; lia).
  assert (H2 : a / b < 2 ^ k) by (apply Z.div_lt_upper_bound; lia).
  assert (Hq : 0 < a / b).
  { pose proof (Z.pow_pos_nonneg 2 (k - 1)). lia. }
  unfold bits. rewrite (Z.log2_unique (a / b) (k - 1)); try lia.
  replace (Z.succ (k - 1)) with k by lia. lia.
Qed.

Lemma quotient_bits a b :
  0 < b -> 0 < a / b ->
  2 ^ (bits (a / b) - 1) * b <= a < 2 ^ bits (a / b) * b.
Proof.
  intros Hb Hq. destruct (bits_spec (a / b) Hq) as [Hk [Hlo Hhi]].
  pose proof (Z.div_mod a b ltac:(lia)) as Hdm.
  pose proof (Z.mod_pos_bound a b Hb) as Hm.
  split; nia.
Qed.

Lemma FL_scale j a b e :
  0 <= j -> 0 < b -> 2 ^ 52 <= a / b ->
  FL (2 ^ j * a) b (e - j) = FL a b e.
Proof.
  intros Hj Hb Hq.
  assert (Hpj : 0 < 2 ^ j) by (apply Z.pow_pos_nonneg; lia).
  destruct (bits_spec (a / b) ltac:(lia)) as [Hk Hkb].
  assert (Hk53 : 53 <= bits (a / b)).
  { destruct (Z.le_gt_cases 53 (bits (a / b))) as [|Hlt]; [assumption|].
    assert (2 ^ bits (a / b) <= 2 ^ 52) by (apply Z.pow_le_mono_r; lia). lia. }
  destruct (quotient_bits a b Hb ltac:(lia)) as [Hlo Hhi].
  assert (Hbits : bits (2 ^ j * a / b) = bits (a / b) + j).
  { apply bits_quotient; try lia.
    replace (bits (a / b) + j - 1) with (j + (bits (a / b) - 1)) by lia.
    replace (bits (a / b) + j) with (j + bits (a / b)) by lia.
    rewrite !Z.pow_add_r by lia. split; nia. }
  unfold FL. rewrite Hbits.
  replace (bits (a / b) + j - 53) with (j + (bits (a / b) - 53)) by lia.
  rewrite Z.pow_add_r by lia.
  replace (b * (2 ^ j * 2 ^ (bits (a / b) - 53)))
    with (2 ^ j * (b * 2 ^ (bits (a / b) - 53))) by lia.
  rewrite rnd_scale
    by first [lia | apply Z.mul_pos_pos; [lia | apply Z.pow_pos_nonneg; lia]].
  replace (e - j + (j + (bits (a / b) - 53))) with (e + (bits (a / b) - 53)) by lia.
  reflexivity.
Qed.

Lemma FL_shifted_quotient a b :
  0 < b -> 2 ^ 52 <= a / b ->
  2 ^ 52 <= a / (b * 2 ^ (bits (a / b) - 53)) < 2 ^ 53.
Proof.
  intros Hb Hq.
  destruct (bits_spec (a / b) ltac:(lia)) as [Hk Hkb].
  assert (Hk53 : 53 <= bits (a / b)).
  { destruct (Z.le_gt_cases 53 (bits (a / b))) as [|Hlt]; [assumption|].
    assert (2 ^ bits (a / b) <= 2 ^ 52) by (apply Z.pow_le_mono_r; lia). lia. }
  rewrite <- Z.div_div by (try apply Z.pow_pos_nonneg; lia).
  pose proof (div_pow2_bounds (a / b) (bits (a / b) - 1) (bits (a / b) - 53)
                ltac:(lia)) as Hd.
  replace (bits (a / b) - 1 + 1) with (bits (a / b)) in Hd by lia.
  replace (bits (a / b) - 1 - (bits (a / b) - 53)) with 52 in Hd by lia.
  exact (Hd Hkb).
Qed.

Lemma FL_bounds a b e :
  0 < b -> 2 ^ 52 <= a / b -> 2 ^ 52 <= fst (FL a b e) < 2 ^ 53.
Proof.
  intros Hb Hq. pose proof (FL_shifted_quotient a b Hb Hq) as Hs.
  pose proof (rnd_bounds a (b * 2 ^ (bits (a / b) - 53))) as Hr.
  unfold FL.
  destruct (Z.ltb_spec (rnd a (b * 2 ^ (bits (a / b) - 53))) (2 ^ 53));
    cbn [fst]; lia.
Qed.

Lemma FL_exponent a b e :
  snd (FL a b e) = e + (bits (a / b) - 53) \/
  (snd (FL a b e) = e + (bits (a / b) - 53) + 1 /\ fst (FL a b e) = 2 ^ 52).
Proof.
  unfold FL.
  destruct (rnd a (b * 2 ^ (bits (a / b) - 53)) <? 2 ^ 53);
    [now left | now right].
Qed.

Lemma FL_mono a1 a2 b e :
  0 < b -> 2 ^ 52 <= a1 / b -> a1 <= a2 ->
  normal_le (FL a1 b e) (FL a2 b e).
Proof.
  intros Hb Hq Hle.
  pose proof (Z.div_le_mono a1 a2 b Hb Hle) as Hq12.
  pose proof (bits_mono (a1 / b) (a2 / b) ltac:(lia)) as Hk.
  pose proof (FL_bounds a1 b e Hb Hq) as Hb1.
  pose proof (FL_bounds a2 b e Hb ltac:(lia)) as Hb2.
  destruct (Z.eq_dec (bits (a1 / b)) (bits (a2 / b))) as [Heq|Hne].
  - unfold normal_le, FL in *. rewrite Heq in *.
    assert (Hp : 0 < b * 2 ^ (bits (a2 / b) - 53)).
    { destruct (bits_spec (a2 / b) ltac:(lia)) as [Hk2 Hkb].
      assert (53 <= bits (a2 / b)).
      { destruct (Z.le_gt_cases 53 (bits (a2 / b))) as [|Hlt]; [assumption|].
        assert (2 ^ bits (a2 / b) <= 2 ^ 52) by (apply Z.pow_le_mono_r; lia). lia. }
      apply Z.mul_pos_pos; [lia | apply Z.pow_pos_nonneg; lia]. }
    pose proof (rnd_mono a1 a2 _ Hp Hle) as Hr.
    destruct (Z.ltb_spec (rnd a1 (b * 2 ^ (bits (a2 / b) - 53))) (2 ^ 53));
      destruct (Z.ltb_spec (rnd a2 (b * 2 ^ (bits (a2 / b) - 53))) (2 ^ 53));
      cbn [fst snd] in *; lia.
  - unfold normal_le.
    destruct (FL_exponent a1 b e) as [E1|[E1 M1]];
      destruct (FL_exponent a2 b e) as [E2|[E2 M2]]; lia.
Qed.

Lemma new_location_spec b r :
  0 < b -> 0 <= r < b ->
  new_location b r = if r =? 0 then loc_Exact else loc_Inexact (2 * r ?= b).
Proof.
  intros Hb Hr. unfold new_location.
  destruct (Z.even b) eqn:Eb.
  - reflexivity.
  - unfold new_location_odd. destruct (r =? 0); [reflexivity|]. f_equal.
    assert (Ho : Z.odd b = true) by (rewrite <- Z.negb_even, Eb; reflexivity).
    apply Z.odd_spec in Ho as [c Hc].
    destruct (Z.compare_spec (2 * r + 1) b);
      destruct (Z.compare_spec (2 * r) b); try reflexivity; lia.
Qed.

Lemma round_new_location a b :
  0 < b -> 0 <= a ->
  round_nearest_even (a / b) (new_location b (a mod b)) = rnd a b.
Proof.
  intros Hb Ha. pose proof (Z.mod_pos_bound a b Hb) as Hm.
  rewrite new_location_spec by assumption. unfold rnd.
  destruct (Z.eqb_spec (a mod b) 0) as [E|N].
  - rewrite E. cbn [round_nearest_even].
    destruct (Z.compare_spec (2 * 0) b); try reflexivity; lia.
  - cbn [round_nearest_even]. now destruct (2 * (a mod b) ?= b).
Qed.

Lemma round_new_location_shr a b :
  0 < b -> 0 <= a ->
  let mrs := shr_1 (shr_record_of_loc (a / b) (new_location b (a mod b))) in
  round_nearest_even (shr_m mrs) (loc_of_shr_record mrs) = rnd a (b * 2).
Proof.
  intros Hb Ha mrs. pose proof (Z.mod_pos_bound a b Hb) as Hm.
  assert (Hq : 0 <= a / b) by (apply Z.div_pos; lia).
  assert (Hmrs : mrs = {| shr_m := a / b / 2; shr_r := Z.odd (a / b);
                          shr_s := negb (a mod b =? 0) |}).
  { unfold mrs. rewrite new_location_spec by assumption.
    destruct (Z.eqb_spec (a mod b) 0) as [E|N].
    - cbn [shr_record_of_loc]. now rewrite shr_1_spec.
    - destruct (2 * (a mod b) ?= b); cbn [shr_record_of_loc];
        now rewrite shr_1_spec. }
  rewrite Hmrs. cbn [shr_m loc_of_shr_record]. unfold rnd.
  rewrite <- Z.div_div by lia. rewrite Z.rem_mul_r by lia.
  pose proof (Z.mod_pos_bound (a / b) 2 ltac:(lia)) as Ho.
  destruct (Z.odd (a / b)) eqn:Eo.
  - assert (H1 : (a / b) mod 2 = 1).
    { rewrite Zmod_odd, Eo. reflexivity. }
    rewrite H1. destruct (Z.eqb_spec (a mod b) 0) as [E|N]; cbn [negb].
    + replace (2 * (a mod b + b * 1) ?= b * 2) with Eq; [reflexivity|].
      symmetry. apply Z.compare_eq_iff. lia.
    + replace (2 * (a mod b + b * 1) ?= b * 2) with Gt; [reflexivity|].
      symmetry. apply Z.compare_gt_iff. lia.
  - assert (H0 : (a / b) mod 2 = 0).
    { rewrite Zmod_odd, Eo. reflexivity. }
    rewrite H0.
    replace (2 * (a mod b + b * 0) ?= b * 2) with Lt.
    + now destruct (negb (a mod b =? 0)).
    + symmetry. apply Z.compare_lt_iff. lia.
Qed.

Lemma binary_round_aux_FL sx a b e :
  0 < b -> 0 <= a -> 2 ^ 52 <= a / b < 2 ^ 54 -> -1000 <= e <= 900 ->
  binary_round_aux prec emax sx (a / b) e (new_location b (a mod b)) =
  S754_finite sx (Z.to_pos (fst (FL a b e))) (snd (FL a b e)).
Proof.
  intros Hb Ha Hq He. unfold FL.
  destruct (Z.lt_ge_cases (a / b) (2 ^ 53)) as [Hlt|Hge].
  - replace (bits (a / b)) with 53
      by (symmetry; rewrite <- Zdigits2_bits by lia; apply Zdigits2_unique; lia).
    replace (53 - 53) with 0 by lia. rewrite Z.pow_0_r, Z.mul_1_r, Z.add_0_r.
    pose proof (rnd_bounds a b) as Hr.
    rewrite (binary_round_aux_finish sx (a / b) e _
               (shr_record_of_loc (a / b) (new_location b (a mod b))) e).
    + rewrite shr_m_record_of_loc, loc_of_record_of_loc.
      rewrite round_new_location by assumption.
      now destruct (rnd a b <? 2 ^ 53).
    + rewrite (shr_fexp_first _ _ _ 53) by lia. reflexivity.
    + rewrite shr_m_record_of_loc, loc_of_record_of_loc.
      rewrite round_new_location by assumption. lia.
    + lia.
  - replace (bits (a / b)) with 54
      by (symmetry; rewrite <- Zdigits2_bits by lia; apply Zdigits2_unique; lia).
    replace (54 - 53) with 1 by lia. rewrite Z.pow_1_r.
    pose proof (rnd_bounds a (b * 2)) as Hr.
    assert (Hq2 : 2 ^ 52 <= a / (b * 2) < 2 ^ 53).
    { rewrite <- Z.div_div by lia.
      split; [apply Z.div_le_lower_bound | apply Z.div_lt_upper_bound]; lia. }
    pose proof (round_new_location_shr a b Hb Ha) as Hs. cbv zeta in Hs.
    rewrite (binary_round_aux_finish sx (a / b) e _
               (shr_1 (shr_record_of_loc (a / b) (new_location b (a mod b))))
               (e + 1)).
    + rewrite Hs. now destruct (rnd a (b * 2) <? 2 ^ 53).
    + rewrite (shr_fexp_first _ _ _ 54) by lia. reflexivity.
    + rewrite Hs. lia.
    + lia.
Qed.

Lemma SFdiv_FL mx ex my ey :
  2 ^ 52 <= Zpos mx < 2 ^ 53 -> 2 ^ 52 <= Zpos my < 2 ^ 53 ->
  -400 <= ex <= 400 -> -400 <= ey <= 400 ->
  SFdiv prec emax (S754_finite false mx ex) (S754_finite false my ey) =
  S754_finite false
    (Z.to_pos (fst (FL (Zpos mx * 2 ^ 53) (Zpos my) (ex - ey - 53))))
    (snd (FL (Zpos mx * 2 ^ 53) (Zpos my) (ex - ey - 53))).
Proof.
  intros Hx Hy Hex Hey. rewrite SFdiv_normal by assumption.
  apply binary_round_aux_FL; try lia.
  split.
  - apply Z.div_le_lower_bound; nia.
  - apply Z.div_lt_upper_bound; nia.
Qed.

Lemma SFleb_normal_le m1 e1 m2 e2 :
  normal_le (Zpos m1, e1) (Zpos m2, e2) ->
  SFleb (S754_finite false m1 e1) (S754_finite false m2 e2) = true.
Proof.
  unfold normal_le, SFleb, SFcompare. cbn [fst snd]. intros H.
  destruct (Z.compare_spec e1 e2) as [He|He|He]; try reflexivity; try lia.
  change (Pos.compare_cont Eq m1 m2) with (Pos.compare m1 m2).
  destruct (Pos.compare_spec m1 m2) as [Hc|Hc|Hc]; try reflexivity.
  apply Pos2Z.pos_lt_pos in Hc. lia.
Qed.

Lemma normal_exponent_wide n : 0 < n <= 2 ^ 63 -> -52 <= snd (normal n) <= 12.
Proof.
  intros [Hn Hmax]. destruct (bits_spec n Hn) as [Hk Hb].
  assert (bits n <= 64).
  { destruct (Z.le_gt_cases (bits n) 64) as [|Hgt]; [assumption|].
    assert (2 ^ 64 <= 2 ^ (bits n - 1)) by (apply Z.pow_le_mono_r; lia). lia. }
  destruct (normal_exponent n Hn) as [->|[-> _]]; lia.
Qed.

(** The quotient of the floats of two positive integers. *)
Lemma div_of_int_FL p d :
  0 < p <= 2 ^ 63 -> 0 < d <= 2 ^ 63 ->
  SFdiv prec emax (of_int p) (of_int d) =
  S754_finite false
    (Z.to_pos (fst (FL (fst (normal p) * 2 ^ 53) (fst (normal d))
                       (snd (normal p) - snd (normal d) - 53))))
    (snd (FL (fst (normal p) * 2 ^ 53) (fst (normal d))
             (snd (normal p) - snd (normal d) - 53))).
Proof.
  intros Hp Hd.
  pose proof (normal_bounds p (proj1 Hp)) as Hbp.
  pose proof (normal_bounds d (proj1 Hd)) as Hbd.
  pose proof (normal_exponent_wide p Hp) as Hep.
  pose proof (normal_exponent_wide d Hd) as Hed.
  rewrite (of_int_spec p), (of_int_spec d) by lia.
  rewrite SFdiv_FL; rewrite ?Z2Pos.id; try lia.
  reflexivity.
Qed.

Lemma div_of_int_mono p1 p2 d :
  0 < p1 <= p2 -> p2 <= 2 ^ 63 -> 0 < d <= 2 ^ 63 ->
  SFleb (SFdiv prec emax (of_int p1) (of_int d))
        (SFdiv prec emax (of_int p2) (of_int d)) = true.
Proof.
  intros Hp Hp2 Hd.
  pose proof (normal_bounds p1 ltac:(lia)) as Hb1.
  pose proof (normal_bounds p2 ltac:(lia)) as Hb2.
  pose proof (normal_bounds d (proj1 Hd)) as Hbd.
  pose proof (normal_mono p1 p2 Hp) as Hle.
  rewrite !div_of_int_FL by lia.
  set (b := fst (normal d)) in *.
  set (e := snd (normal p1) - snd (normal d) - 53).
  set (j := snd (normal p2) - snd (normal p1)).
  assert (Hj : 0 <= j) by (unfold j, normal_le in *; lia).
  assert (Hq1 : 2 ^ 52 <= fst (normal p1) * 2 ^ 53 / b).
  { apply Z.div_le_lower_bound; nia. }
  assert (Hq2 : 2 ^ 52 <= fst (normal p2) * 2 ^ 53 / b).
  { apply Z.div_le_lower_bound; nia. }
  replace (snd (normal p2) - snd (normal d) - 53) with (e + j) by (unfold e, j; lia).
  rewrite <- (FL_scale j (fst (normal p2) * 2 ^ 53) b (e + j)) by lia.
  replace (e + j - j) with e by lia.
  assert (Hnum : fst (normal p1) * 2 ^ 53 <= 2 ^ j * (fst (normal p2) * 2 ^ 53)).
  { destruct Hle as [Hlt|[Heq Hm]].
    - assert (2 ^ 1 <= 2 ^ j) by (apply Z.pow_le_mono_r; unfold j; lia).
      change (2 ^ 1) with 2 in *. nia.
    - replace j with 0 by (unfold j; lia). rewrite Z.pow_0_r. lia. }
  pose proof (FL_mono _ _ b e ltac:(lia) Hq1 Hnum) as Hmono.
  pose proof (FL_bounds (fst (normal p1) * 2 ^ 53) b e ltac:(lia) Hq1) as HF1.
  assert (Hq2' : 2 ^ 52 <= 2 ^ j * (fst (normal p2) * 2 ^ 53) / b).
  { pose proof (Z.div_le_mono _ _ b ltac:(lia) Hnum). lia. }
  pose proof (FL_bounds (2 ^ j * (fst (normal p2) * 2 ^ 53)) b e ltac:(lia) Hq2')
    as HF2.
  apply SFleb_normal_le. unfold normal_le in *. cbn [fst snd].
  rewrite !Z2Pos.id by lia. exact Hmono.
Qed.

Lemma binary_round_aux_opp m e l :
  binary_round_aux prec emax true m e l
  = SFopp (binary_round_aux prec emax false m e l).
Proof.
  unfold binary_round_aux.
  destruct (shr_fexp prec emax m e l) as [mrs' e'].
  destruct (shr_fexp prec emax _ e' loc_Exact) as [mrs'' e''].
  destruct (shr_m mrs''); try reflexivity.
  now destruct (e'' <=? emax - prec).
Qed.

Lemma of_int_neg n : 0 < n -> of_int (- n) = SFopp (of_int n).
Proof.
  intros Hn. destruct n as [|p|p]; try lia.
  unfold of_int. cbn [Z.opp binary_normalize]. unfold binary_round.
  destruct (shl_align p 0 _) as [mz ez]. apply binary_round_aux_opp.
Qed.

Lemma SFdiv_opp_l mx ex my ey :
  SFdiv prec emax (S754_finite true mx ex) (S754_finite false my ey)
  = SFopp (SFdiv prec emax (S754_finite false mx ex) (S754_finite false my ey)).
Proof.
  unfold SFdiv.
  destruct (SFdiv_core_binary prec emax (Zpos mx) ex (Zpos my) ey) as [[mz ez] lz].
  apply binary_round_aux_opp.
Qed.

Lemma of_int_finite n :
  0 < n <= 2 ^ 63 ->
  exists m e, of_int n = S754_finite false m e.
Proof.
  intros Hn. rewrite of_int_spec by lia. eexists; eexists; reflexivity.
Qed.

Lemma div_of_int_neg p d :
  0 < p <= 2 ^ 63 -> 0 < d <= 2 ^ 63 ->
  div (of_int (- p)) (of_int d) = SFopp (div (of_int p) (of_int d)).
Proof.
  intros Hp Hd. rewrite of_int_neg by lia.
  destruct (of_int_finite p Hp) as (mx & ex & ->).
  destruct (of_int_finite d Hd) as (my & ey & ->).
  apply SFdiv_opp_l.
Qed.

Lemma div_of_int_finite p d :
  0 < p <= 2 ^ 63 -> 0 < d <= 2 ^ 63 ->
  exists m e, div (of_int p) (of_int d) = S754_finite false m e.
Proof.
  intros Hp Hd. unfold div. rewrite div_of_int_FL by assumption.
  eexists; eexists; reflexivity.
Qed.

Lemma div_zero_l d :
  0 < d <= 2 ^ 63 -> div (of_int 0) (of_int d) = zero.
Proof.
  intros Hd. destruct (of_int_finite d Hd) as (my & ey & ->). reflexivity.
Qed.

Lemma SFleb_opp m1 e1 m2 e2 :
  SFleb (S754_finite false m2 e2) (S754_finite false m1 e1) = true ->
  SFleb (S754_finite true m1 e1) (S754_finite true m2 e2) = true.
Proof.
  unfold SFleb, SFcompare.
  change (Pos.compare_cont Eq m2 m1) with (Pos.compare m2 m1).
  change (Pos.compare_cont Eq m1 m2) with (Pos.compare m1 m2).
  destruct (Z.compare_spec e2 e1) as [H1|H1|H1];
    destruct (Z.compare_spec e1 e2) as [H2|H2|H2];
    try lia; try (intros; reflexivity); try discriminate.
  destruct (Pos.compare_spec m2 m1) as [H3|H3|H3];
    destruct (Pos.compare_spec m1 m2) as [H4|H4|H4];
    try lia; cbn [CompOpp]; try (intros; reflexivity); discriminate.
Qed.

(** The quotient is monotone in the numerator, over the whole range of a
    64-bit [int]. *)
Lemma div_of_int_monotone p1 p2 d :
  MinInt <= p1 -> p1 <= p2 -> p2 <= MaxInt -> 0 < d <= MaxInt ->
  SFleb (div (of_int p1) (of_int d)) (div (of_int p2) (of_int d)) = true.
Proof.
  unfold MinInt, MaxInt. intros Hmin Hle Hmax Hd.
  assert (Hd' : 0 < d <= 2 ^ 63) by lia.
  destruct (Z.lt_trichotomy p1 0) as [N1|[Z1|P1]].
  - replace p1 with (- - p1) by lia.
    rewrite (div_of_int_neg (- p1)) by lia.
    destruct (div_of_int_finite (- p1) d ltac:(lia) Hd') as (m1 & e1 & E1).
    rewrite E1. cbn [SFopp negb].
    destruct (Z.lt_trichotomy p2 0) as [N2|[Z2|P2]].
    + replace p2 with (- - p2) by lia.
      rewrite (div_of_int_neg (- p2)) by lia.
      destruct (div_of_int_finite (- p2) d ltac:(lia) Hd') as (m2 & e2 & E2).
      rewrite E2. cbn [SFopp negb]. apply SFleb_opp.
      rewrite <- E1, <- E2. apply div_of_int_mono; lia.
    + subst p2. rewrite div_zero_l by lia. reflexivity.
    + destruct (div_of_int_finite p2 d ltac:(lia) Hd') as (m2 & e2 & ->).
      reflexivity.
  - subst p1. rewrite div_zero_l by lia.
    destruct (Z.eq_dec p2 0) as [->|Hp2].
    + rewrite div_zero_l by lia. reflexivity.
    + destruct (div_of_int_finite p2 d ltac:(lia) Hd') as (m2 & e2 & ->).
      reflexivity.
  - apply div_of_int_mono; lia.
Qed.

(** The quotient is a number, and its sign is the sign of the numerator. *)
Lemma div_of_int_number p d :
  MinInt <= p <= MaxInt -> 0 < d <= MaxInt ->
  is_number (div (of_int p) (of_int d)) = true
  /\ (0 <= p -> SFleb zero (div (of_int p) (of_int d)) = true)
  /\ (p <= 0 -> SFleb (div (of_int p) (of_int d)) zero = true).
Proof.
  unfold MinInt, MaxInt. intros Hp Hd.
  assert (Hd' : 0 < d <= 2 ^ 63) by lia.
  destruct (Z.lt_trichotomy p 0) as [N|[Z|P]].
  - replace p with (- - p) by lia.
    rewrite (div_of_int_neg (- p)) by lia.
    destruct (div_of_int_finite (- p) d ltac:(lia) Hd') as (m & e & ->).
    repeat split; try reflexivity. intros; lia.
  - subst p. rewrite div_zero_l by lia. repeat split.
  - destruct (div_of_int_finite p d ltac:(lia) Hd') as (m & e & ->).
    repeat split; try reflexivity. intros; lia.
Qed.

End Float64Order.

(** ** More on the progress *)

(** X19: for every position and duration that a 64-bit [int] can hold,
    [Progress] is a number (never NaN, never an infinity), it is at least
    0 when the position is and at most 0 when the position is; and
    negating a positive position negates the progress. *)
Theorem X19_progress_is_a_number (cur : CurrentlyPlaying) (item : FullTrack) :
  let position := playing_Progress cur in
  let duration := track_Duration item in
  let P := Progress (trackDetails cur item) in
  (Float64Ext.MinInt <= position <= Float64.MaxInt)%Z ->
  (duration <= Float64.MaxInt)%Z ->
  Float64Ext.is_number P = true
  /\ ((0 <= position)%Z -> Float64.leb Float64.zero P = true)
  /\ ((position <= 0)%Z -> Float64.leb P Float64.zero = true)
  /\ ((0 < position)%Z -> (0 < duration)%Z ->
      Progress (trackDetails (negated cur) item) = Float64Ext.opp P).
Proof.
  intros position duration P Hp Hd.
  unfold P. cbn [trackDetails Progress negated]. unfold progress.
  cbn [playing_Progress]. fold position duration.
  destruct (Z.ltb_spec 0 duration) as [Hpos|Hneg].
  - destruct (Float64Order.div_of_int_number position duration Hp ltac:(lia))
      as (H1 & H2 & H3).
    repeat split; try assumption.
    intros Hp0 _. apply Float64Order.div_of_int_neg;
      unfold Float64Ext.MinInt, Float64.MaxInt in *; lia.
  - repeat split. intros _ H. lia.
Qed.

Lemma X19_progress_is_a_number_witness :
  Float64Ext.is_number (Progress (trackDetails Examples.overrun Examples.songA))
    = true
  /\ Progress (trackDetails (negated Examples.overrun) Examples.songA)
     = Float64Ext.opp (Progress (trackDetails Examples.overrun Examples.songA)).
Proof.
  destruct (X19_progress_is_a_number Examples.overrun Examples.songA)
    as (H1 & _ & _ & H4).
  - unfold Float64Ext.MinInt, Float64.MaxInt. cbn. lia.
  - unfold Float64.MaxInt. cbn. lia.
  - split; [exact H1|]. apply H4; cbn; lia.
Defined.

(** X20: for a given track, [Progress] never decreases when the position
    grows: over the whole range of a 64-bit [int], a position that is not
    smaller gives a progress that is not smaller. *)
Theorem X20_progress_monotone (cur1 cur2 : CurrentlyPlaying) (item : FullTrack) :
  (Float64Ext.MinInt <= playing_Progress cur1)%Z ->
  (playing_Progress cur1 <= playing_Progress cur2)%Z ->
  (playing_Progress cur2 <= Float64.MaxInt)%Z ->
  (track_Duration item <= Float64.MaxInt)%Z ->
  Float64.leb (Progress (trackDetails cur1 item))
              (Progress (trackDetails cur2 item)) = true.
Proof.
  intros Hmin Hle Hmax Hd.
  cbn [trackDetails Progress]. unfold progress.
  destruct (Z.ltb_spec 0 (track_Duration item)) as [Hpos|Hneg].
  - apply Float64Order.div_of_int_monotone; try assumption. lia.
  - reflexivity.
Qed.

Lemma X20_progress_monotone_witness :
  Float64.leb (Progress (trackDetails Examples.playingSongA Examples.songA))
              (Progress (trackDetails Examples.overrun Examples.songA)) = true.
Proof.
  apply (X20_progress_monotone Examples.playingSongA Examples.overrun
           Examples.songA);
    unfold Float64Ext.MinInt, Float64.MaxInt; cbn; lia.
Defined.

(** ** Reading a published line back *)

Lemma HasPrefix_take (s sep : string) :
  Strings.HasPrefix s sep = Strings.HasPrefix (Strings.take (String.length sep) s) sep.
Proof.
  revert s. induction sep as [|p sep IH]; intros s; [reflexivity|].
  destruct s as [|c s]; [reflexivity|].
  cbn [String.length Strings.take Strings.HasPrefix]. now rewrite IH.
Qed.

Lemma take_take (m n : nat) (s : string) :
  (m <= n)%nat -> Strings.take m (Strings.take n s) = Strings.take m s.
Proof.
  revert n s. induction m as [|m IH]; intros n s H; [now destruct n, s|].
  destruct n as [|n]; [lia|]. destruct s as [|c s]; [reflexivity|].
  cbn [Strings.take]. f_equal. apply IH. lia.
Qed.

Lemma take_append_take (a b : string) (n m : nat) :
  (m <= String.length a + n)%nat ->
  Strings.take m (a +++ b) = Strings.take m (a +++ Strings.take n b).
Proof.
  revert m. induction a as [|c a IH]; intros m H.
  - cbn [String.append String.length] in *. symmetry. now apply take_take.
  - destruct m as [|m]; [reflexivity|].
    cbn [String.append Strings.take]. f_equal. apply IH.
    cbn [String.length] in H. lia.
Qed.

Lemma drop_append (a b : string) : drop (String.length a) (a +++ b) = b.
Proof. induction a as [|c a IH]; [now destruct b | exact IH]. Qed.

(** A separator cannot start inside a non-empty [name] that is followed
    by the separator, unless it already starts inside [name] followed by
    all but the last byte of the separator. *)
Lemma HasPrefix_name_sep (c : ascii) (name sep rest : string) :
  sep <> EmptyString ->
  Strings.HasPrefix (String c name +++ sep +++ rest) sep =
  Strings.HasPrefix
    (String c name +++ Strings.take (String.length sep - 1) sep) sep.
Proof.
  intros Hsep.
  rewrite HasPrefix_take.
  rewrite (take_append_take (String c name) (sep +++ rest)
             (String.length sep - 1) (String.length sep))
    by (cbn [String.length]; lia).
  rewrite (take_app_short (String.length sep - 1) sep rest) by lia.
  now rewrite <- HasPrefix_take.
Qed.

Lemma Cut_name_sep (name sep rest : string) :
  sep <> EmptyString ->
  Strings.occurrences sep (name +++ Strings.take (String.length sep - 1) sep) = 0%nat ->
  Cut (name +++ sep +++ rest) sep = Some (name, rest).
Proof.
  intros Hsep. induction name as [|c name IH]; intros Hocc.
  - cbn [String.append]. destruct sep as [|p sep]; [contradiction|].
    change (Cut (String p sep +++ rest) (String p sep))
      with (if Strings.HasPrefix (String p sep +++ rest) (String p sep)
            then Some (EmptyString,
                       drop (String.length (String p sep)) (String p sep +++ rest))
            else match Cut (sep +++ rest) (String p sep) with
                 | Some (before, after) => Some (String p before, after)
                 | None => None
                 end).
    now rewrite HasPrefix_append, drop_append.
  - change (String c name +++ Strings.take (String.length sep - 1) sep)
      with (String c (name +++ Strings.take (String.length sep - 1) sep)) in Hocc.
    cbn [Strings.occurrences] in Hocc.
    change (String c (name +++ Strings.take (String.length sep - 1) sep))
      with (String c name +++ Strings.take (String.length sep - 1) sep) in Hocc.
    rewrite <- (HasPrefix_name_sep c name sep rest Hsep) in Hocc.
    destruct (Strings.HasPrefix (String c name +++ sep +++ rest) sep) eqn:Hp;
      [discriminate|].
    change (Cut (String c name +++ sep +++ rest) sep)
      with (if Strings.HasPrefix (String c name +++ sep +++ rest) sep
            then Some (EmptyString,
                       drop (String.length sep) (String c name +++ sep +++ rest))
            else match Cut (name +++ sep +++ rest) sep with
                 | Some (before, after) => Some (String c before, after)
                 | None => None
                 end).
    rewrite Hp, IH by exact Hocc. reflexivity.
Qed.

(** X21: the published line can be read back.  When the track name holds
    no [" - "] and does not end in [" -"], cutting the line at its first
    [" - "] gives the track name and the artist string; the line for
    "nothing is playing" holds no [" - "] at all; so two such tracks with
    the same line have the same name and the same artist string. *)
Theorem X21_line_reads_back (d : TrackDetails) :
  Strings.occurrences " - " (Name d +++ " -") = 0%nat ->
  Cut (output (Some d)) " - " = Some (Name d, Artists d)
  /\ Cut (output None) " - " = None
  /\ (forall d',
        Strings.occurrences " - " (Name d' +++ " -") = 0%nat ->
        output (Some d) = output (Some d') ->
        Name d = Name d' /\ Artists d = Artists d').
Proof.
  intros H.
  assert (Hcut : forall x, Strings.occurrences " - " (Name x +++ " -") = 0%nat ->
                 Cut (output (Some x)) " - " = Some (Name x, Artists x)).
  { intros x Hx. cbn [output]. apply Cut_name_sep; [discriminate | exact Hx]. }
  split; [now apply Hcut|]. split; [reflexivity|].
  intros d' H' E. pose proof (Hcut d H) as C1. pose proof (Hcut d' H') as C2.
  rewrite E, C2 in C1. now injection C1 as -> ->.
Qed.

Lemma X21_line_reads_back_witness :
  Cut "Song A - X, Y" " - " = Some ("Song A", "X, Y").
Proof.
  exact (proj1 (X21_line_reads_back
                  (trackDetails Examples.playingSongA Examples.songA) eq_refl)).
Defined.

(** ** What the loops log *)

Lemma count_isLog_dispatch api client action :
  count isLog (trace (dispatch api client action))
  = count isApiCall (trace (dispatch api client action)).
Proof.
  unfold dispatch.
  destruct (action =? Play)%string; [now destruct api|].
  destruct (action =? Pause)%string; [now destruct api|].
  destruct (action =? Next)%string; [now destruct api|].
  reflexivity.
Qed.

Lemma publisherIteration_logs pipe env st :
  count isLog (trace (publisherIteration pipe env st))
  = match outcome (publisherIteration pipe env st) with
    | Ret _ => 0%nat
    | Exit _ => 1%nat
    end.
Proof.
  rewrite publisherIteration_eq. cbv zeta.
  destruct (snd (pub_response env)), (pub_open env), (pub_write env);
    cbn [trace fst outcome snd];
    rewrite !count_app, !count_refreshEvents by reflexivity; reflexivity.
Qed.

Lemma controlIteration_logs F1 F2 pipe env st :
  count isLog (trace (controlIteration F1 F2 pipe env st))
  = (count isApiCall (trace (controlIteration F1 F2 pipe env st))
     + match outcome (controlIteration F1 F2 pipe env st) with
       | Ret _ => 0
       | Exit _ => 1
       end)%nat.
Proof.
  rewrite controlIteration_eq, readTrackControlFromPipe_eq.
  destruct (ctl_open env) as [e|]; cbn [outcome snd trace fst]; [reflexivity|].
  destruct (File_Read 128 (ctl_input env)) as [bytes [e|]];
    cbn [outcome snd trace fst]; [reflexivity|].
  rewrite !count_app, !count_refreshEvents, count_isLog_dispatch by reflexivity.
  cbn. lia.
Qed.

(** X22: the publisher loop logs nothing as long as it runs, and exactly
    one line, the diagnostic, when it exits; the control loop logs one
    line for every playback call it makes, whether the call succeeded or
    failed, nothing for input it ignores, and one more line, the
    diagnostic, when it exits. *)
Theorem X22_log_accounting F1 F2 ppipe penvs cpipe cenvs (st : State) :
  count isLog (trace (publisherLoop ppipe penvs st))
  = match outcome (publisherLoop ppipe penvs st) with
    | Ret _ => 0%nat
    | Exit _ => 1%nat
    end
  /\
  count isLog (trace (controlLoop F1 F2 cpipe cenvs st))
  = (count isApiCall (trace (controlLoop F1 F2 cpipe cenvs st))
     + match outcome (controlLoop F1 F2 cpipe cenvs st) with
       | Ret _ => 0
       | Exit _ => 1
       end)%nat.
Proof.
  split.
  - revert st. induction penvs as [|env rest IH]; intros st; [reflexivity|].
    rewrite publisherLoop_step.
    pose proof (publisherIteration_logs ppipe env st) as Hit.
    destruct (outcome (publisherIteration ppipe env st)) as [st'|c];
      cbn [trace fst outcome snd]; [|exact Hit].
    now rewrite count_app, Hit, IH.
  - revert st. induction cenvs as [|env rest IH]; intros st; [reflexivity|].
    rewrite controlLoop_step.
    pose proof (controlIteration_logs F1 F2 cpipe env st) as Hit.
    destruct (outcome (controlIteration F1 F2 cpipe env st)) as [st'|c];
      cbn [trace fst outcome snd]; [|exact Hit].
    rewrite !count_app, Hit, IH. lia.
Qed.
